(** * Operation resolver and phase dispatcher of gravity's CLI
    (tool/gravity/cli/operation.go)

    The Go code reads operation records from several backends, merges them
    in a map keyed by operation ID, sorts the candidates by creation time and
    dispatches a phase action on the operation's type.  Calls to the
    collaborators (backends, operator API, phase handlers) and log records are
    kept as a trace of events next to every result. *)

From Stdlib Require Import ZArith Lia.
From stdpp Require Import gmap strings list fin_maps sorting.

#[local] Set Warnings "-clear-no-such-hyp".

Local Open Scope string_scope.
Local Open Scope list_scope.

(** ** Errors (github.com/gravitational/trace) *)

Inductive ErrorKind :=
| NotFoundKind
| BadParameterKind
| OtherKind (name : string).

(** An error value: its kind, the message it was created with, and the
    messages of the [trace.Wrap] calls it went through (innermost last). *)
Record error := mkError {
  kind : ErrorKind;
  message : string;
  wraps : list string }.

Definition NotFound (msg : string) : error := mkError NotFoundKind msg [].
Definition BadParameter (msg : string) : error := mkError BadParameterKind msg [].

(** [trace.Wrap(err, msg)]: the kind and the original message are kept. *)
Definition WrapMsg (e : error) (msg : string) : error :=
  {| kind := kind e; message := message e; wraps := msg :: wraps e |}.

(** [trace.Wrap(err)] on a non-nil error. *)
Definition Wrap (e : error) : error := WrapMsg e EmptyString.

(** [trace.Wrap(err)] on a possibly nil error: nil stays nil. *)
Definition WrapNil (e : option error) : option error :=
  match e with
  | Some e' => Some (Wrap e')
  | None => None
  end.

Definition IsNotFound (e : error) : bool :=
  match kind e with
  | NotFoundKind => true
  | _ => false
  end.

Inductive result (A : Type) :=
| Ok (a : A)
| Err (e : error).
Arguments Ok {A} a.
Arguments Err {A} e.

(** ** Operation records (lib/ops) *)

(** [op.Type]: the six types the dispatcher switches on; every other value of
    the Go string type falls in the [default] branch. *)
Inductive OperationType :=
| OperationInstall
| OperationExpand
| OperationUpdate
| OperationUpdateRuntimeEnviron
| OperationUpdateConfig
| OperationGarbageCollect
| OperationOther (name : string).

(** Modelled from the spec: the status of [ops.SiteOperation], which is
    declared in lib/ops and missing here: Completed, Failed, or Active
    (incomplete and not failed). *)
Inductive OperationStatus :=
| StatusCompleted
| StatusFailed
| StatusActive.

(** [ops.SiteOperation], with the fields the code reads. *)
Record SiteOperation := mkOp {
  ID : string;
  Type_ : OperationType;
  Created : Z;
  Status : OperationStatus }.

(** Modelled from the spec: the method [IsCompleted] of [ops.SiteOperation]
    (lib/ops, missing here); an operation is active iff it is not completed,
    and failed is a sub-state of completed. *)
Definition IsCompleted (op : SiteOperation) : bool :=
  match Status op with
  | StatusActive => false
  | StatusCompleted | StatusFailed => true
  end.

(** Modelled from the spec: the method [IsFailed] of [ops.SiteOperation]
    (lib/ops, missing here). *)
Definition IsFailed (op : SiteOperation) : bool :=
  match Status op with
  | StatusFailed => true
  | _ => false
  end.

Definition isActiveOperation (op : SiteOperation) : bool :=
  IsFailed op || negb (IsCompleted op).

(** [a.After(b)] on creation times. *)
Definition After (a b : Z) : bool := (b <? a)%Z.

#[global] Instance ErrorKind_eq_dec : EqDecision ErrorKind.
Proof. solve_decision. Defined.
#[global] Instance error_eq_dec : EqDecision error.
Proof. solve_decision. Defined.
#[global] Instance OperationType_eq_dec : EqDecision OperationType.
Proof. solve_decision. Defined.
#[global] Instance OperationStatus_eq_dec : EqDecision OperationStatus.
Proof. solve_decision. Defined.
#[global] Instance SiteOperation_eq_dec : EqDecision SiteOperation.
Proof. solve_decision. Defined.

(** ** Phase parameters and the Installer interface *)

(** A value of the [Installer] interface: the built-in [defaultInstaller{}]
    or an implementation supplied by the caller. *)
Inductive Installer :=
| defaultInstaller
| injectedInstaller (name : string).

Record PhaseParams := mkParams {
  PhaseID : string;
  OperationID : string;
  Force : bool;
  Timeout : Z;
  SkipVersionCheck : bool;
  Installer_ : option Installer }.

(** ** Events: collaborator calls, handler invocations, log records *)

Inductive Env := UpdateEnv | JoinEnv | WizardEnv.

Record SiteKey := mkSiteKey { AccountID : string; SiteDomain : string }.

(** Queries issued to the operation sources. *)
Inductive SourceCall :=
| NewClusterEnvironment
| StorageGetOperations
| StorageGetLastOperation (env : Env)
| NewRemoteEnvironment
| OperatorGetLocalSite
| OpsGetLastOperation (key : SiteKey)
| NewLocalWizardEnvironment.

(** The type-specific handlers, with the arguments they are called with. *)
Inductive HandlerCall :=
| executeInstallPhase (p : PhaseParams) (op : SiteOperation)
| rollbackInstallPhase (p : PhaseParams) (op : SiteOperation)
| startInstall
| injectedExecutePhase (name : string) (p : PhaseParams) (op : SiteOperation)
| injectedRollbackPhase (name : string) (p : PhaseParams) (op : SiteOperation)
| injectedRestart (name : string)
| executeJoinPhase (p : PhaseParams) (op : SiteOperation)
| rollbackJoinPhase (p : PhaseParams) (op : SiteOperation)
| executeUpdatePhase (p : PhaseParams) (op : SiteOperation)
| rollbackUpdatePhase (p : PhaseParams) (op : SiteOperation)
| executeEnvironPhase (p : PhaseParams) (op : SiteOperation)
| rollbackEnvironPhase (p : PhaseParams) (op : SiteOperation)
| executeConfigPhase (p : PhaseParams) (op : SiteOperation)
| rollbackConfigPhase (p : PhaseParams) (op : SiteOperation)
| executeGarbageCollectPhase (p : PhaseParams) (op : SiteOperation)
| completeInstallPlan (op : SiteOperation)
| completeJoinPlan (op : SiteOperation)
| completeUpdatePlan (op : SiteOperation)
| completeEnvironPlan (op : SiteOperation)
| completeConfigPlan (op : SiteOperation).

Inductive Level := DebugLevel | InfoLevel | WarnLevel.

(** A logrus record: level, message text, the error attached with
    [WithError], the [context] field and the operations it lists. *)
Record LogRecord := mkLog {
  level : Level;
  text : string;
  log_error : option error;
  log_context : option string;
  log_operations : list SiteOperation }.

Inductive Event :=
| Query (c : SourceCall)
| Invoke (h : HandlerCall)
| Log (l : LogRecord).

(** ** Computations that leave a trace of events *)

Definition M (A : Type) : Type := A * list Event.

Definition ret {A} (a : A) : M A := (a, []).

Definition bind {A B} (m : M A) (k : A -> M B) : M B :=
  let '(a, w1) := m in
  let '(b, w2) := k a in
  (b, w1 ++ w2).

Definition emit (e : Event) : M unit := (tt, [e]).

Notation "'let*' x ':=' m 'in' k" := (bind m (fun x => k))
  (at level 100, x pattern, m at level 99, k at level 200, right associativity).
Notation "m ;; k" := (bind m (fun _ => k))
  (at level 100, k at level 200, right associativity).

Definition value {A} (m : M A) : A := fst m.
Definition events {A} (m : M A) : list Event := snd m.

Definition logf (lvl : Level) (msg : string) (err : option error)
    (ctx : option string) (ops : list SiteOperation) : M unit :=
  emit (Log (mkLog lvl msg err ctx ops)).

(** ** The sources of one resolution pass *)

(** [wizardEnv.Operator]: the remote operator API. *)
Record Operator := mkOperator {
  GetLocalSite : result SiteKey;
  GetLastOperation : SiteKey -> result SiteOperation }.

(** What every collaborator answers during the pass.  [None] for
    [updateEnv] and [joinEnv] is the nil environment; the other environments
    carry the answer of their backend. *)
Record Sources := mkSources {
  clusterEnv : option (result (list SiteOperation));
  clusterEnvErr : option error;
  updateEnv : option (result SiteOperation);
  joinEnv : option (result SiteOperation);
  remoteEnv : result (option Operator);
  localWizardEnv : result (result SiteOperation) }.

(** ** backendOperations *)

Record backendOperations := mkBackendOperations {
  operations : gmap string SiteOperation;
  clusterOperation : option SiteOperation }.

Definition newBackendOperations : backendOperations :=
  {| operations := ∅; clusterOperation := None |}.

(** An [operationGetter]: the call it makes and what the call answers. *)
Record operationGetter := mkGetter {
  getter_call : SourceCall;
  getter_answer : result SiteOperation }.

Definition getOperation (g : operationGetter) : M (result SiteOperation) :=
  emit (Query (getter_call g)) ;;
  match getter_answer g with
  | Ok op => ret (Ok op)
  | Err e => ret (Err (Wrap e))
  end.

Definition getOperationFromOperator (operator : Operator) (clusterKey : SiteKey)
    : operationGetter :=
  mkGetter (OpsGetLastOperation clusterKey) (GetLastOperation operator clusterKey).

Definition getOperationFromBackend (env : Env) (backend : result SiteOperation)
    : operationGetter :=
  mkGetter (StorageGetLastOperation env) backend.

Definition init (clusterBackend : result (list SiteOperation)) (r : backendOperations)
    : M (option error * backendOperations) :=
  emit (Query StorageGetOperations) ;;
  match clusterBackend with
  | Err e => ret (Some (WrapMsg e "failed to query cluster operations"), r)
  | Ok [] => ret (None, r)
  | Ok ((first :: _) as clusterOperations) =>
      let ops := foldl (fun m op => <[ID op := op]> m) (operations r) clusterOperations in
      ret (None, {| operations := <[ID first := first]> ops;
                    clusterOperation := Some first |})
  end.

Definition getOperationAndUpdateCache (getter : operationGetter) (context : string)
    (r : backendOperations) : M (option SiteOperation * backendOperations) :=
  let* res := getOperation getter in
  match res with
  | Ok op =>
      ret (Some op, {| operations := <[ID op := op]> (operations r);
                       clusterOperation := clusterOperation r |})
  | Err e =>
      logf WarnLevel "Failed to query operation." (Some e) (Some context) [] ;;
      ret (None, r)
  end.

Definition isActiveInstallOperation (r : backendOperations) : bool :=
  match clusterOperation r with
  | None => true
  | Some op => bool_decide (Type_ op = OperationInstall)
  end.

(** The tail of [List] once the remote operator could not be used: the
    warning, then the local wizard environment. *)
Definition listLocalWizard (src : Sources) (err : option error) (r : backendOperations)
    : M (option error * backendOperations) :=
  logf WarnLevel "Failed to comnect to wizard." err None [] ;;
  emit (Query NewLocalWizardEnvironment) ;;
  match localWizardEnv src with
  | Err e => ret (Some (WrapMsg e "failed to read local wizard environment"), r)
  | Ok backend =>
      let* (_, r') := getOperationAndUpdateCache
                       (getOperationFromBackend WizardEnv backend) "install" r in
      ret (None, r')
  end.

Definition List (src : Sources) (r : backendOperations)
    : M (option error * backendOperations) :=
  emit (Query NewClusterEnvironment) ;;
  match clusterEnvErr src with
  | Some e => logf DebugLevel "Failed to create cluster environment." (Some e) None []
  | None => ret tt
  end ;;
  let* r1 := match clusterEnv src with
           | Some backend =>
               let* (err, r') := init backend r in
               match err with
               | Some e => logf DebugLevel "Failed to query cluster operations."
                             (Some e) None []
               | None => ret tt
               end ;;
               ret r'
           | None => ret r
           end in
  let* r2 := match updateEnv src with
           | Some backend =>
               let* (_, r') := getOperationAndUpdateCache
                                (getOperationFromBackend UpdateEnv backend) "update" r1 in
               ret r'
           | None => ret r1
           end in
  let* r3 := match joinEnv src with
           | Some backend =>
               let* (_, r') := getOperationAndUpdateCache
                                (getOperationFromBackend JoinEnv backend) "expand" r2 in
               ret r'
           | None => ret r2
           end in
  if isActiveInstallOperation r3 then
    emit (Query NewRemoteEnvironment) ;;
    match remoteEnv src with
    | Ok (Some operator) =>
        emit (Query OperatorGetLocalSite) ;;
        match GetLocalSite operator with
        | Ok cluster =>
            let* (_, r') := getOperationAndUpdateCache
                             (getOperationFromOperator operator cluster) "install" r3 in
            ret (None, r')
        | Err _ => listLocalWizard src None r3
        end
    | Ok None => listLocalWizard src None r3
    | Err e => listLocalWizard src (Some e) r3
    end
  else ret (None, r3).

(** ** The resolver's queries and the dispatcher *)

Section Resolver.
(** [for _, op := range b.operations]: Go leaves the iteration order of a
    map unspecified; [rangeMap] is the order of one run. *)
Variable rangeMap : gmap string SiteOperation -> list (string * SiteOperation).

(** [sort.Slice] of Go's standard library, given the [less] function. *)
Variable sortSlice :
  (SiteOperation -> SiteOperation -> bool) -> list SiteOperation -> list SiteOperation.

(** [fsm.RootPhase]. *)
Variable RootPhase : string.

(** [fmt]'s [%q] applied to [op.Type]. *)
Variable fmtQ : OperationType -> string.

(** What a handler returns when it is called ([None] is a nil error). *)
Variable handler : HandlerCall -> option error.

Definition matchesID (operationID : string) (op : SiteOperation) : bool :=
  String.eqb operationID EmptyString || String.eqb operationID (ID op).

(** The [less] function given to [sort.Slice]. *)
Definition createdAfter (a b : SiteOperation) : bool :=
  After (Created a) (Created b).

Definition getBackendOperations (src : Sources) (operationID : string)
    : M (result (list SiteOperation)) :=
  let b := newBackendOperations in
  let* (err, b') := List src b in
  match err with
  | Some e => ret (Err (Wrap e))
  | None =>
      let result :=
        List.filter (matchesID operationID) (List.map snd (rangeMap (operations b'))) in
      ret (Ok (sortSlice createdAfter result))
  end.

Definition noOperation (operationID : string) : error :=
  if negb (String.eqb operationID EmptyString)
  then NotFound ("no operation with ID " +:+ operationID +:+ " found")
  else NotFound "no operation found".

(** The format string of the notice is kept as the source writes it; the
    operations it prints are the record's [log_operations]. *)
Definition multipleOperations : string :=
  "Multiple operations found: \n%v\n, please specify operation with --operation-id.\nDisplaying the most recent operation.".

Definition getLastOperation (src : Sources) (operationID : string)
    : M (result SiteOperation) :=
  let* res := getBackendOperations src operationID in
  match res with
  | Err e => ret (Err (Wrap e))
  | Ok operations =>
      logf DebugLevel "Fetched backend operations." None None operations ;;
      match operations with
      | [] => ret (Err (noOperation operationID))
      | first :: _ =>
          if Nat.eqb (length operations) 1 && negb (String.eqb operationID EmptyString)
          then
            logf DebugLevel "Fetched operation by ID." None None [first] ;;
            ret (Ok first)
          else
            (if negb (Nat.eqb (length operations) 1)
             then logf InfoLevel multipleOperations None None operations
             else ret tt) ;;
            ret (Ok first)
      end
  end.

Fixpoint getActiveOperationFromList (operations : list SiteOperation)
    : result SiteOperation :=
  match operations with
  | [] => Err (NotFound "no active operations found")
  | op :: rest =>
      if negb (IsCompleted op) then Ok op else getActiveOperationFromList rest
  end.

Definition getActiveOperation (src : Sources) (operationID : string)
    : M (result SiteOperation) :=
  let* res := getBackendOperations src operationID in
  match res with
  | Err e => ret (Err (Wrap e))
  | Ok operations =>
      logf DebugLevel "Fetched backend operations." None None operations ;;
      match operations with
      | [] => ret (Err (noOperation operationID))
      | _ :: _ =>
          match getActiveOperationFromList operations with
          | Err e => ret (Err (Wrap e))
          | Ok op => ret (Ok op)
          end
      end
  end.

Definition invoke (h : HandlerCall) : M (option error) :=
  emit (Invoke h) ;; ret (handler h).

(** The methods of the [Installer] interface. *)
Definition Installer_ExecutePhase (i : Installer) (p : PhaseParams)
    (operation : SiteOperation) : M (option error) :=
  match i with
  | defaultInstaller =>
      let* e := invoke (executeInstallPhase p operation) in ret (WrapNil e)
  | injectedInstaller name => invoke (injectedExecutePhase name p operation)
  end.

Definition Installer_RollbackPhase (i : Installer) (p : PhaseParams)
    (operation : SiteOperation) : M (option error) :=
  match i with
  | defaultInstaller =>
      let* e := invoke (rollbackInstallPhase p operation) in ret (WrapNil e)
  | injectedInstaller name => invoke (injectedRollbackPhase name p operation)
  end.

Definition Installer_Restart (i : Installer) : M (option error) :=
  match i with
  | defaultInstaller => let* e := invoke startInstall in ret (WrapNil e)
  | injectedInstaller name => invoke (injectedRestart name)
  end.

Definition installerOrDefault (i : option Installer) : Installer :=
  match i with
  | None => defaultInstaller
  | Some installer => installer
  end.

Definition unsupported (op : SiteOperation) (action : string) : error :=
  BadParameter ("operation type " +:+ fmtQ (Type_ op)
                +:+ " does not support plan " +:+ action).

Definition ExecutePhase (src : Sources) (params : PhaseParams) : M (option error) :=
  let* res := getActiveOperation src (OperationID params) in
  match res with
  | Err e => ret (Some (Wrap e))
  | Ok op =>
      match Type_ op with
      | OperationInstall =>
          Installer_ExecutePhase (installerOrDefault (Installer_ params)) params op
      | OperationExpand => invoke (executeJoinPhase params op)
      | OperationUpdate => invoke (executeUpdatePhase params op)
      | OperationUpdateRuntimeEnviron => invoke (executeEnvironPhase params op)
      | OperationUpdateConfig => invoke (executeConfigPhase params op)
      | OperationGarbageCollect => invoke (executeGarbageCollectPhase params op)
      | OperationOther _ => ret (Some (unsupported op "execution"))
      end
  end.

Definition RollbackPhase (src : Sources) (params : PhaseParams) : M (option error) :=
  let* res := getActiveOperation src (OperationID params) in
  match res with
  | Err e => ret (Some (Wrap e))
  | Ok op =>
      match Type_ op with
      | OperationInstall =>
          Installer_RollbackPhase (installerOrDefault (Installer_ params)) params op
      | OperationExpand => invoke (rollbackJoinPhase params op)
      | OperationUpdate => invoke (rollbackUpdatePhase params op)
      | OperationUpdateRuntimeEnviron => invoke (rollbackEnvironPhase params op)
      | OperationUpdateConfig => invoke (rollbackConfigPhase params op)
      | OperationGarbageCollect | OperationOther _ =>
          ret (Some (unsupported op "rollback"))
      end
  end.

Definition completeOperationPlan (src : Sources) (operationID : string)
    : M (option error) :=
  let* res := getActiveOperation src operationID in
  match res with
  | Err e => ret (Some (Wrap e))
  | Ok op =>
      match Type_ op with
      | OperationInstall => invoke (completeInstallPlan op)
      | OperationExpand => invoke (completeJoinPlan op)
      | OperationUpdate => invoke (completeUpdatePlan op)
      | OperationUpdateRuntimeEnviron => invoke (completeEnvironPlan op)
      | OperationUpdateConfig => invoke (completeConfigPlan op)
      | OperationGarbageCollect | OperationOther _ =>
          ret (Some (unsupported op "completion"))
      end
  end.

Definition ResumeOperation (src : Sources) (params : PhaseParams) : M (option error) :=
  let installer := installerOrDefault (Installer_ params) in
  let params :=
    {| PhaseID := RootPhase;
       OperationID := OperationID params;
       Force := Force params;
       Timeout := Timeout params;
       SkipVersionCheck := SkipVersionCheck params;
       Installer_ := Some installer |} in
  let* err := ExecutePhase src params in
  match err with
  | None => ret None
  | Some e =>
      if negb (IsNotFound e) then ret (Some (Wrap e))
      else let* r := Installer_Restart installer in ret (WrapNil r)
  end.
End Resolver.

(** ** Concrete collaborators *)

(** The insertion sort [sort.Slice] runs on short slices: every element in
    turn is swapped towards the front while it is [less] than its
    predecessor.  [sink] works on the sorted prefix in reverse. *)
Fixpoint sink (less : SiteOperation -> SiteOperation -> bool) (x : SiteOperation)
    (revPrefix : list SiteOperation) : list SiteOperation :=
  match revPrefix with
  | [] => [x]
  | y :: front => if less x y then y :: sink less x front else x :: y :: front
  end.

Definition insertionSort (less : SiteOperation -> SiteOperation -> bool)
    (data : list SiteOperation) : list SiteOperation :=
  reverse (foldl (fun revPrefix x => sink less x revPrefix) [] data).

(** Two iteration orders of the same map. *)
Definition rangeForward (m : gmap string SiteOperation) : list (string * SiteOperation) :=
  map_to_list m.

Definition rangeBackward (m : gmap string SiteOperation) : list (string * SiteOperation) :=
  reverse (map_to_list m).

(** A handler environment in which every handler succeeds. *)
Definition handlersSucceed (h : HandlerCall) : option error := None.

(** A sample rendering of [%q] on [op.Type] for the examples: the name in
    double quotes.  The values of the six constants are declared in lib/ops;
    they are rendered here by the identifier of their constant. *)
Definition typeName (t : OperationType) : string :=
  match t with
  | OperationInstall => "OperationInstall"
  | OperationExpand => "OperationExpand"
  | OperationUpdate => "OperationUpdate"
  | OperationUpdateRuntimeEnviron => "OperationUpdateRuntimeEnviron"
  | OperationUpdateConfig => "OperationUpdateConfig"
  | OperationGarbageCollect => "OperationGarbageCollect"
  | OperationOther name => name
  end.

Definition quoteType (t : OperationType) : string :=
  String (Ascii.ascii_of_nat 34) (typeName t +:+ String (Ascii.ascii_of_nat 34) EmptyString).

(** ** Contracts of the library functions *)

(** A [less] function as [sort.Slice] expects it. *)
Definition StrictWeakOrder (less : SiteOperation -> SiteOperation -> bool) : Prop :=
  (forall a b, less a b = true -> less b a = false) /\
  (forall a b c, less a c = true -> less a b = true \/ less b c = true).

(** [sort.Slice] reorders the slice so that no element is [less] than one
    placed before it; equal elements may end up in any order. *)
Definition SortsSlices
    (sortSlice : (SiteOperation -> SiteOperation -> bool) ->
                 list SiteOperation -> list SiteOperation) : Prop :=
  forall less l,
    sortSlice less l ≡ₚ l /\
    (StrictWeakOrder less ->
     StronglySorted (fun a b => less b a = false) (sortSlice less l)).

(** [range] over a map visits every entry once, in some order. *)
Definition RangesMaps
    (rangeMap : gmap string SiteOperation -> list (string * SiteOperation)) : Prop :=
  forall m, rangeMap m ≡ₚ map_to_list m.

(** ** The merge of section 4.1, written as data *)

Definition optionList {A} (o : option A) : list A :=
  match o with
  | Some a => [a]
  | None => []
  end.

(** What the cluster backend delivered. *)
Definition clusterOps (src : Sources) : list SiteOperation :=
  match clusterEnv src with
  | Some (Ok l) => l
  | _ => []
  end.

(** The Cluster Operation Pointer: the first operation of the cluster backend. *)
Definition clusterPointer (src : Sources) : option SiteOperation :=
  head (clusterOps src).

Definition reported (r : option (result SiteOperation)) : option SiteOperation :=
  match r with
  | Some (Ok op) => Some op
  | _ => None
  end.

Definition updateOp (src : Sources) : option SiteOperation := reported (updateEnv src).
Definition joinOp (src : Sources) : option SiteOperation := reported (joinEnv src).

(** Step 4: consult the install sources iff the pointer is absent or its
    type is Install. *)
Definition consultInstall (src : Sources) : bool :=
  match clusterPointer src with
  | None => true
  | Some op => bool_decide (Type_ op = OperationInstall)
  end.

(** The remote operator is reached when the remote environment is created,
    carries an operator, and the operator returns the local cluster. *)
Definition operatorReached (src : Sources) : option (Operator * SiteKey) :=
  match remoteEnv src with
  | Ok (Some operator) =>
      match GetLocalSite operator with
      | Ok key => Some (operator, key)
      | Err _ => None
      end
  | _ => None
  end.

(** The operation the install sources contribute, if any. *)
Definition installOp (src : Sources) : option SiteOperation :=
  if consultInstall src then
    match operatorReached src with
    | Some (operator, key) => reported (Some (GetLastOperation operator key))
    | None =>
        match localWizardEnv src with
        | Ok backend => reported (Some backend)
        | Err _ => None
        end
    end
  else None.

(** The operations in the order they are written to the map: the cluster
    backend's (the pointer is written once more after them), the update
    environment's, the join environment's, and last the install sources'. *)
Definition earlierSequence (src : Sources) : list SiteOperation :=
  clusterOps src ++ optionList (clusterPointer src) ++ optionList (updateOp src)
  ++ optionList (joinOp src).

Definition mergeSequence (src : Sources) : list SiteOperation :=
  earlierSequence src ++ optionList (installOp src).

Definition mergeAll (l : list SiteOperation) : gmap string SiteOperation :=
  foldl (fun m op => <[ID op := op]> m) ∅ l.

(** The last operation of a sequence that carries the given ID. *)
Definition lastWithID (id : string) (l : list SiteOperation) : option SiteOperation :=
  last (List.filter (fun op => String.eqb (ID op) id) l).

(** The only failure of a pass: the install sources are consulted, the
    operator is not reached and the local wizard environment cannot be read. *)
Definition listFailure (src : Sources) : option error :=
  if consultInstall src then
    match operatorReached src with
    | Some _ => None
    | None =>
        match localWizardEnv src with
        | Err e => Some (WrapMsg e "failed to read local wizard environment")
        | Ok _ => None
        end
    end
  else None.

(** The queries of step 5, in the order they are issued. *)
Definition wizardTrace (src : Sources) : list SourceCall :=
  NewLocalWizardEnvironment ::
  match localWizardEnv src with
  | Ok _ => [StorageGetLastOperation WizardEnv]
  | Err _ => []
  end.

Definition installTrace (src : Sources) : list SourceCall :=
  if consultInstall src then
    NewRemoteEnvironment ::
    match remoteEnv src with
    | Ok (Some operator) =>
        OperatorGetLocalSite ::
        match GetLocalSite operator with
        | Ok key => [OpsGetLastOperation key]
        | Err _ => wizardTrace src
        end
    | _ => wizardTrace src
    end
  else [].

(** All the queries of a pass, in the order they are issued. *)
Definition expectedQueries (src : Sources) : list SourceCall :=
  NewClusterEnvironment ::
  match clusterEnv src with Some _ => [StorageGetOperations] | None => [] end
  ++ match updateEnv src with Some _ => [StorageGetLastOperation UpdateEnv] | None => [] end
  ++ match joinEnv src with Some _ => [StorageGetLastOperation JoinEnv] | None => [] end
  ++ installTrace src.

(** ** Reading traces *)

Definition sourceQueries (evs : list Event) : list SourceCall :=
  omap (fun e => match e with Query c => Some c | _ => None end) evs.

Definition handlerCalls (evs : list Event) : list HandlerCall :=
  omap (fun e => match e with Invoke h => Some h | _ => None end) evs.

Definition logRecords (evs : list Event) : list LogRecord :=
  omap (fun e => match e with Log l => Some l | _ => None end) evs.

(** Queries that go to an install source: the remote environment and its
    operator, the local wizard environment and its backend. *)
Definition isInstallQuery (c : SourceCall) : bool :=
  match c with
  | NewRemoteEnvironment | OperatorGetLocalSite | OpsGetLastOperation _
  | NewLocalWizardEnvironment | StorageGetLastOperation WizardEnv => true
  | _ => false
  end.

Definition installQueries (evs : list Event) : list SourceCall :=
  List.filter isInstallQuery (sourceQueries evs).

(** One run of [List] on a fresh [backendOperations]. *)
Definition listRun (src : Sources) : M (option error * backendOperations) :=
  List src newBackendOperations.

Definition listError (src : Sources) : option error := fst (value (listRun src)).
Definition listState (src : Sources) : backendOperations := snd (value (listRun src)).

(** The candidates of a query: the merged operations that pass the ID filter. *)
Definition candidates (src : Sources) (operationID : string) : list SiteOperation :=
  List.filter (matchesID operationID)
    (List.map snd (map_to_list (operations (listState src)))).

(** ** The dispatch table of section 4.2 *)

Inductive Action := Execute | Rollback | Complete.

Definition actionName (a : Action) : string :=
  match a with
  | Execute => "execution"
  | Rollback => "rollback"
  | Complete => "completion"
  end.

(** The table of section 4.2: the handler named for a type and an action,
    with the arguments it is called with.  The Install row names the method
    of the installer the parameters carry, and the built-in install handler
    when they carry none (or carry [defaultInstaller{}] itself); [None] is an
    unsupported combination. *)
Definition tableCall (a : Action) (params : PhaseParams) (op : SiteOperation)
    : option HandlerCall :=
  match Type_ op, a with
  | OperationInstall, Execute =>
      match Installer_ params with
      | Some (injectedInstaller name) => Some (injectedExecutePhase name params op)
      | Some defaultInstaller | None => Some (executeInstallPhase params op)
      end
  | OperationInstall, Rollback =>
      match Installer_ params with
      | Some (injectedInstaller name) => Some (injectedRollbackPhase name params op)
      | Some defaultInstaller | None => Some (rollbackInstallPhase params op)
      end
  | OperationInstall, Complete => Some (completeInstallPlan op)
  | OperationExpand, Execute => Some (executeJoinPhase params op)
  | OperationExpand, Rollback => Some (rollbackJoinPhase params op)
  | OperationExpand, Complete => Some (completeJoinPlan op)
  | OperationUpdate, Execute => Some (executeUpdatePhase params op)
  | OperationUpdate, Rollback => Some (rollbackUpdatePhase params op)
  | OperationUpdate, Complete => Some (completeUpdatePlan op)
  | OperationUpdateRuntimeEnviron, Execute => Some (executeEnvironPhase params op)
  | OperationUpdateRuntimeEnviron, Rollback => Some (rollbackEnvironPhase params op)
  | OperationUpdateRuntimeEnviron, Complete => Some (completeEnvironPlan op)
  | OperationUpdateConfig, Execute => Some (executeConfigPhase params op)
  | OperationUpdateConfig, Rollback => Some (rollbackConfigPhase params op)
  | OperationUpdateConfig, Complete => Some (completeConfigPlan op)
  | OperationGarbageCollect, Execute => Some (executeGarbageCollectPhase params op)
  | OperationGarbageCollect, (Rollback | Complete) => None
  | OperationOther _, _ => None
  end.

(** What comes back from a handler of the table: the handler's own result,
    which the built-in installer wraps. *)
Definition tableResult (handler : HandlerCall -> option error) (call : HandlerCall)
    : option error :=
  match call with
  | executeInstallPhase _ _ | rollbackInstallPhase _ _ | startInstall =>
      WrapNil (handler call)
  | _ => handler call
  end.

(** What the three entry points run for a type and an action, gathered in
    one function and written with the code's own [Installer] methods; it is
    compared with [tableCall] in [dispatchTable_tableCall]. *)
Definition dispatchTable (handler : HandlerCall -> option error) (a : Action)
    (params : PhaseParams) (op : SiteOperation) : option (M (option error)) :=
  let installer := installerOrDefault (Installer_ params) in
  match Type_ op, a with
  | OperationInstall, Execute => Some (Installer_ExecutePhase handler installer params op)
  | OperationInstall, Rollback => Some (Installer_RollbackPhase handler installer params op)
  | OperationInstall, Complete => Some (invoke handler (completeInstallPlan op))
  | OperationExpand, Execute => Some (invoke handler (executeJoinPhase params op))
  | OperationExpand, Rollback => Some (invoke handler (rollbackJoinPhase params op))
  | OperationExpand, Complete => Some (invoke handler (completeJoinPlan op))
  | OperationUpdate, Execute => Some (invoke handler (executeUpdatePhase params op))
  | OperationUpdate, Rollback => Some (invoke handler (rollbackUpdatePhase params op))
  | OperationUpdate, Complete => Some (invoke handler (completeUpdatePlan op))
  | OperationUpdateRuntimeEnviron, Execute =>
      Some (invoke handler (executeEnvironPhase params op))
  | OperationUpdateRuntimeEnviron, Rollback =>
      Some (invoke handler (rollbackEnvironPhase params op))
  | OperationUpdateRuntimeEnviron, Complete =>
      Some (invoke handler (completeEnvironPlan op))
  | OperationUpdateConfig, Execute => Some (invoke handler (executeConfigPhase params op))
  | OperationUpdateConfig, Rollback => Some (invoke handler (rollbackConfigPhase params op))
  | OperationUpdateConfig, Complete => Some (invoke handler (completeConfigPlan op))
  | OperationGarbageCollect, Execute =>
      Some (invoke handler (executeGarbageCollectPhase params op))
  | OperationGarbageCollect, (Rollback | Complete) => None
  | OperationOther _, _ => None
  end.

(** The three entry points, by action. *)
Definition entryPoint
    (rangeMap : gmap string SiteOperation -> list (string * SiteOperation))
    (sortSlice : (SiteOperation -> SiteOperation -> bool) ->
                 list SiteOperation -> list SiteOperation)
    (fmtQ : OperationType -> string) (handler : HandlerCall -> option error)
    (a : Action) (src : Sources) (params : PhaseParams) : M (option error) :=
  match a with
  | Execute => ExecutePhase rangeMap sortSlice fmtQ handler src params
  | Rollback => RollbackPhase rangeMap sortSlice fmtQ handler src params
  | Complete =>
      completeOperationPlan rangeMap sortSlice fmtQ handler src (OperationID params)
  end.

(** The parameters [ResumeOperation] passes on. *)
Definition resumeParams (RootPhase : string) (params : PhaseParams) : PhaseParams :=
  {| PhaseID := RootPhase;
     OperationID := OperationID params;
     Force := Force params;
     Timeout := Timeout params;
     SkipVersionCheck := SkipVersionCheck params;
     Installer_ := Some (installerOrDefault (Installer_ params)) |}.

(** The handler behind [Installer.Restart]. *)
Definition restartCall (i : Installer) : HandlerCall :=
  match i with
  | defaultInstaller => startInstall
  | injectedInstaller name => injectedRestart name
  end.

(** ** Sample inputs *)

Definition connectionProblem : error := mkError (OtherKind "ConnectionProblem") "connection refused" [].
Definition ioError : error := mkError (OtherKind "IOError") "no such file" [].

Definition opA1 : SiteOperation := mkOp "A" OperationUpdate 10 StatusCompleted.
Definition opA2 : SiteOperation := mkOp "A" OperationUpdate 10 StatusActive.
Definition opA3 : SiteOperation := mkOp "A" OperationUpdate 11 StatusFailed.
Definition opB : SiteOperation := mkOp "B" OperationUpdate 20 StatusActive.
Definition opC : SiteOperation := mkOp "C" OperationUpdate 20 StatusActive.
Definition opD : SiteOperation := mkOp "D" OperationExpand 30 StatusCompleted.
Definition opG : SiteOperation := mkOp "G" OperationGarbageCollect 40 StatusActive.
Definition opI : SiteOperation := mkOp "I" OperationInstall 5 StatusActive.

(** A cluster with one completed update; the update environment holds a
    newer, active update. *)
Definition srcUpdate : Sources :=
  {| clusterEnv := Some (Ok [opA1]); clusterEnvErr := None;
     updateEnv := Some (Ok opB); joinEnv := None;
     remoteEnv := Err connectionProblem; localWizardEnv := Err ioError |}.

(** The same operation ID in the cluster, the update environment and the
    join environment. *)
Definition srcSameID : Sources :=
  {| clusterEnv := Some (Ok [opA1]); clusterEnvErr := None;
     updateEnv := Some (Ok opA2); joinEnv := Some (Ok opA3);
     remoteEnv := Err connectionProblem; localWizardEnv := Err ioError |}.

(** The cluster and the update environment hold the same operation ID. *)
Definition srcOverride : Sources :=
  {| clusterEnv := Some (Ok [opA1]); clusterEnvErr := None;
     updateEnv := Some (Ok opA2); joinEnv := None;
     remoteEnv := Err connectionProblem; localWizardEnv := Err ioError |}.

(** Two operations created at the same time. *)
Definition srcTie : Sources :=
  {| clusterEnv := Some (Ok [opB]); clusterEnvErr := None;
     updateEnv := Some (Ok opC); joinEnv := None;
     remoteEnv := Err connectionProblem; localWizardEnv := Err ioError |}.

(** No cluster yet, no wizard reachable, no local wizard state. *)
Definition srcNothing : Sources :=
  {| clusterEnv := None; clusterEnvErr := Some connectionProblem;
     updateEnv := None; joinEnv := None;
     remoteEnv := Err connectionProblem; localWizardEnv := Err ioError |}.

(** No cluster yet; the local wizard environment opens but holds no operation. *)
Definition srcEmptyWizard : Sources :=
  {| clusterEnv := None; clusterEnvErr := Some connectionProblem;
     updateEnv := None; joinEnv := None;
     remoteEnv := Err connectionProblem;
     localWizardEnv := Ok (Err (NotFound "no operation found")) |}.

(** An install in flight: the operator of the wizard is reachable. *)
Definition wizardOperator : Operator :=
  {| GetLocalSite := Ok (mkSiteKey "system" "example.com");
     GetLastOperation := fun _ => Ok opI |}.

Definition srcInstall : Sources :=
  {| clusterEnv := None; clusterEnvErr := Some connectionProblem;
     updateEnv := None; joinEnv := None;
     remoteEnv := Ok (Some wizardOperator); localWizardEnv := Err ioError |}.

(** The operator is reachable but holds no operation. *)
Definition emptyOperator : Operator :=
  {| GetLocalSite := Ok (mkSiteKey "system" "example.com");
     GetLastOperation := fun _ => Err (NotFound "no operations found") |}.

Definition srcEmptyOperator : Sources :=
  {| clusterEnv := None; clusterEnvErr := Some connectionProblem;
     updateEnv := None; joinEnv := None;
     remoteEnv := Ok (Some emptyOperator); localWizardEnv := Ok (Ok opI) |}.

(** Only completed operations. *)
Definition srcCompleted : Sources :=
  {| clusterEnv := Some (Ok [opD; opA1]); clusterEnvErr := None;
     updateEnv := None; joinEnv := None;
     remoteEnv := Err connectionProblem; localWizardEnv := Err ioError |}.

(** A garbage collection in progress. *)
Definition srcGC : Sources :=
  {| clusterEnv := Some (Ok [opG; opA1]); clusterEnvErr := None;
     updateEnv := None; joinEnv := None;
     remoteEnv := Err connectionProblem; localWizardEnv := Err ioError |}.

(** The root of a phase tree. *)
Definition sampleRootPhase : string := "/".

Definition sampleParams : PhaseParams :=
  {| PhaseID := "/masters"; OperationID := EmptyString; Force := false;
     Timeout := 600; SkipVersionCheck := false; Installer_ := None |}.

(** Parameters that carry an installer of the caller. *)
Definition injectedParams : PhaseParams :=
  {| PhaseID := "/masters"; OperationID := EmptyString; Force := false;
     Timeout := 600; SkipVersionCheck := false;
     Installer_ := Some (injectedInstaller "fake") |}.

(** The record [getLastOperation] and [getActiveOperation] log once the
    operations are fetched. *)
Definition fetched (res : result (list SiteOperation)) : list Event :=
  match res with
  | Ok ops => [Log (mkLog DebugLevel "Fetched backend operations." None None ops)]
  | Err _ => []
  end.

(** ** Further notions for the properties of the code *)

(** Every entry of the map is filed under the ID of its operation. *)
Definition keysAreIDs (m : gmap string SiteOperation) : Prop :=
  forall k op, m !! k = Some op -> ID op = k.

(** Writing a sequence of operations to a map, one after the other. *)
Definition writeAll (m : gmap string SiteOperation) (l : list SiteOperation)
    : gmap string SiteOperation :=
  foldl (fun m op => <[ID op := op]> m) m l.

(** The parameters and the operation a handler is called with. *)
Definition callParams (h : HandlerCall) : option PhaseParams :=
  match h with
  | executeInstallPhase p _ | rollbackInstallPhase p _
  | injectedExecutePhase _ p _ | injectedRollbackPhase _ p _
  | executeJoinPhase p _ | rollbackJoinPhase p _
  | executeUpdatePhase p _ | rollbackUpdatePhase p _
  | executeEnvironPhase p _ | rollbackEnvironPhase p _
  | executeConfigPhase p _ | rollbackConfigPhase p _
  | executeGarbageCollectPhase p _ => Some p
  | _ => None
  end.

Definition callOperation (h : HandlerCall) : option SiteOperation :=
  match h with
  | executeInstallPhase _ op | rollbackInstallPhase _ op
  | injectedExecutePhase _ _ op | injectedRollbackPhase _ _ op
  | executeJoinPhase _ op | rollbackJoinPhase _ op
  | executeUpdatePhase _ op | rollbackUpdatePhase _ op
  | executeEnvironPhase _ op | rollbackEnvironPhase _ op
  | executeConfigPhase _ op | rollbackConfigPhase _ op
  | executeGarbageCollectPhase _ op
  | completeInstallPlan op | completeJoinPlan op | completeUpdatePlan op
  | completeEnvironPlan op | completeConfigPlan op => Some op
  | startInstall | injectedRestart _ => None
  end.

(** The place of a query in the order [List] issues them. *)
Definition queryRank (c : SourceCall) : nat :=
  match c with
  | NewClusterEnvironment => 0
  | StorageGetOperations => 1
  | StorageGetLastOperation UpdateEnv => 2
  | StorageGetLastOperation JoinEnv => 3
  | NewRemoteEnvironment => 4
  | OperatorGetLocalSite => 5
  | OpsGetLastOperation _ => 6
  | NewLocalWizardEnvironment => 7
  | StorageGetLastOperation WizardEnv => 8
  end.

(** More sample inputs. *)

(** The cluster backend and the join environment fail; the update
    environment answers. *)
Definition srcDegraded : Sources :=
  {| clusterEnv := Some (Err connectionProblem); clusterEnvErr := None;
     updateEnv := Some (Ok opB); joinEnv := Some (Err ioError);
     remoteEnv := Err connectionProblem; localWizardEnv := Ok (Ok opI) |}.

(** The same answers without the failing sources. *)
Definition srcDegradedAbsent : Sources :=
  {| clusterEnv := None; clusterEnvErr := Some connectionProblem;
     updateEnv := Some (Ok opB); joinEnv := None;
     remoteEnv := Err connectionProblem; localWizardEnv := Ok (Ok opI) |}.

(** No cluster, no wizard, and the local wizard environment is reported as
    not found. *)
Definition wizardNotFound : error := NotFound "wizard environment not found".

Definition srcWizardNotFound : Sources :=
  {| clusterEnv := None; clusterEnvErr := Some connectionProblem;
     updateEnv := None; joinEnv := None;
     remoteEnv := Err connectionProblem; localWizardEnv := Err wizardNotFound |}.

(** The cluster records an install under the ID the update environment uses
    for an update. *)
Definition opI2 : SiteOperation := mkOp "I" OperationUpdate 50 StatusActive.

Definition srcPointerOverwritten : Sources :=
  {| clusterEnv := Some (Ok [opI]); clusterEnvErr := None;
     updateEnv := Some (Ok opI2); joinEnv := None;
     remoteEnv := Err connectionProblem; localWizardEnv := Ok (Err wizardNotFound) |}.

(** The cluster backend lists an ID twice. *)
Definition srcDuplicate : result (list SiteOperation) := Ok [opA2; opB; opA1].

(** Handlers of which the update phase fails with a NotFound error. *)
Definition handlersPhaseNotFound (h : HandlerCall) : option error :=
  match h with
  | executeUpdatePhase _ _ => Some (NotFound "phase not found")
  | _ => None
  end.

(** The parameters an entry point hands to its handler:
    [completeOperationPlan] has none to hand over. *)
Definition paramsPassed (a : Action) (params : PhaseParams) : option PhaseParams :=
  match a with
  | Complete => None
  | Execute | Rollback => Some params
  end.

(** A state that already holds an operation. *)
Definition stateWithZ : backendOperations :=
  {| operations := {[ "Z" := mkOp "Z" OperationExpand 1 StatusCompleted ]};
     clusterOperation := None |}.

(** The cluster records an install; no other source answers. *)
Definition srcInstallOnly : Sources :=
  {| clusterEnv := Some (Ok [opI]); clusterEnvErr := None;
     updateEnv := None; joinEnv := None;
     remoteEnv := Err connectionProblem; localWizardEnv := Ok (Err wizardNotFound) |}.

(** ** Properties of the library models *)

Lemma sink_perm less x l : sink less x l ≡ₚ x :: l.
Proof.
  induction l as [|y l IH]; simpl; [done|].
  destruct (less x y); [|done].
  rewrite IH. apply Permutation_swap.
Qed.

Lemma sink_sorted less x l :
  StrictWeakOrder less ->
  StronglySorted (fun a b => less a b = false) l ->
  StronglySorted (fun a b => less a b = false) (sink less x l).
Proof.
  intros [Hasym Hneg]. induction l as [|y l IH]; simpl; intros Hs.
  - repeat constructor.
  - apply StronglySorted_cons in Hs as [Hy Hl].
    destruct (less x y) eqn:Hxy.
    + apply StronglySorted_cons. split; [|by apply IH].
      rewrite sink_perm. constructor; [by apply Hasym|done].
    + apply StronglySorted_cons. split; [|by apply StronglySorted_cons].
      constructor; [done|].
      rewrite Forall_forall in Hy |- *. intros z Hz.
      destruct (less x z) eqn:Hxz; [|done].
      destruct (Hneg x y z Hxz) as [H|H]; [congruence|].
      specialize (Hy z Hz). congruence.
Qed.

Lemma insertionSort_sorts : SortsSlices insertionSort.
Proof.
  intros less l. unfold insertionSort.
  assert (Hgen : forall acc,
    foldl (fun revPrefix x => sink less x revPrefix) acc l ≡ₚ l ++ acc /\
    (StrictWeakOrder less ->
     StronglySorted (fun a b => less a b = false) acc ->
     StronglySorted (fun a b => less a b = false)
       (foldl (fun revPrefix x => sink less x revPrefix) acc l))).
  { induction l as [|x l IH]; intros acc; simpl.
    - split; [done|auto].
    - destruct (IH (sink less x acc)) as [Hp Hs]. split.
      + rewrite Hp, sink_perm. by rewrite Permutation_middle.
      + intros Ho Hacc. apply Hs; [done|]. by apply sink_sorted. }
  destruct (Hgen []) as [Hp Hs]. split.
  - rewrite reverse_Permutation, Hp. by rewrite app_nil_r.
  - intros Ho. specialize (Hs Ho (SSorted_nil _)).
    revert Hs. generalize (foldl (fun revPrefix x => sink less x revPrefix) [] l).
    intros s Hs.
    induction Hs as [|a s Hs IH Ha]; [constructor|].
    rewrite reverse_cons. apply StronglySorted_app. split_and!; [|done|repeat constructor].
    intros x1 x2 Hx1 Hx2. apply list_elem_of_singleton in Hx2 as ->.
    rewrite Forall_forall in Ha. apply Ha. by apply elem_of_reverse.
Qed.

Lemma rangeForward_ranges : RangesMaps rangeForward.
Proof. intros m. done. Qed.

Lemma rangeBackward_ranges : RangesMaps rangeBackward.
Proof. intros m. unfold rangeBackward. by rewrite reverse_Permutation. Qed.

Lemma createdAfter_order : StrictWeakOrder createdAfter.
Proof.
  unfold createdAfter, After. split.
  - intros a b H. apply Z.ltb_lt in H. apply Z.ltb_ge. lia.
  - intros a b c H. apply Z.ltb_lt in H. rewrite !Z.ltb_lt. lia.
Qed.

(** ** Traces and the monad *)

Lemma bind_value {A B} (m : M A) (k : A -> M B) :
  value (bind m k) = value (k (value m)).
Proof. destruct m as [a w]. unfold bind, value. simpl. by destruct (k a). Qed.

Lemma bind_events {A B} (m : M A) (k : A -> M B) :
  events (bind m k) = events m ++ events (k (value m)).
Proof. destruct m as [a w]. unfold bind, events, value. simpl. by destruct (k a). Qed.

Lemma M_eta {A} (m : M A) : m = (value m, events m).
Proof. by destruct m. Qed.

Lemma sourceQueries_app evs1 evs2 :
  sourceQueries (evs1 ++ evs2) = sourceQueries evs1 ++ sourceQueries evs2.
Proof. apply omap_app. Qed.

Lemma handlerCalls_app evs1 evs2 :
  handlerCalls (evs1 ++ evs2) = handlerCalls evs1 ++ handlerCalls evs2.
Proof. apply omap_app. Qed.

Lemma elem_of_sourceQueries c evs : c ∈ sourceQueries evs <-> Query c ∈ evs.
Proof.
  unfold sourceQueries. rewrite list_elem_of_omap. split.
  - intros (e & He & Hc). destruct e; naive_solver.
  - intros He. exists (Query c). done.
Qed.

Lemma elem_of_handlerCalls h evs : h ∈ handlerCalls evs <-> Invoke h ∈ evs.
Proof.
  unfold handlerCalls. rewrite list_elem_of_omap. split.
  - intros (e & He & Hc). destruct e; naive_solver.
  - intros He. exists (Invoke h). done.
Qed.

(** ** One pass of [List] *)

Ltac list_unfold :=
  unfold listError, listState, listRun, List, listLocalWizard,
    getOperationAndUpdateCache, getOperation, getOperationFromOperator,
    getOperationFromBackend, init, isActiveInstallOperation, logf, emit, bind, ret,
    value, events.

(** The state, the result and the queries of a pass, in closed form. *)
Lemma List_run src :
  operations (listState src) = mergeAll (mergeSequence src) /\
  clusterOperation (listState src) = clusterPointer src /\
  listError src = listFailure src /\
  sourceQueries (events (listRun src)) = expectedQueries src /\
  handlerCalls (events (listRun src)) = [].
Proof.
  unfold mergeAll, mergeSequence, earlierSequence. rewrite !foldl_app.
  destruct src as [ce cee ue je re lw]. list_unfold.
  unfold expectedQueries, installTrace, wizardTrace, listFailure, installOp,
    consultInstall, operatorReached, clusterPointer, clusterOps, updateOp, joinOp,
    reported, sourceQueries, handlerCalls.
  simpl. destruct cee; simpl;
  destruct ce as [[[|c cl]|?]|]; simpl;
  (destruct ue as [[?|?]|]; simpl;
   (destruct je as [[?|?]|]; simpl;
    (try (destruct (bool_decide _) eqn:Hd; simpl);
     try (destruct re as [[[[k|?] glo]|]|?]; simpl;
          try (destruct (glo k) eqn:Hglo; simpl);
          try (destruct lw as [[?|?]|?]; simpl));
     done))).
Qed.

Lemma mergeAll_snoc l op : mergeAll (l ++ [op]) = <[ID op := op]> (mergeAll l).
Proof. unfold mergeAll. by rewrite foldl_app. Qed.

(** Later writes win: the map holds, for every ID, the last operation of
    the sequence with that ID. *)
Lemma mergeAll_lookup l id : mergeAll l !! id = lastWithID id l.
Proof.
  induction l as [|op l IH] using rev_ind; [done|].
  rewrite mergeAll_snoc. unfold lastWithID in *. rewrite List.filter_app. simpl.
  destruct (String.eqb_spec (ID op) id) as [->|Hne].
  - by rewrite lookup_insert_eq, last_snoc.
  - by rewrite lookup_insert_ne, app_nil_r.
Qed.

Lemma installTrace_filter src :
  List.filter isInstallQuery (installTrace src) = installTrace src.
Proof.
  unfold installTrace, wizardTrace.
  destruct (consultInstall src); [|done].
  destruct (remoteEnv src) as [[o|]|?]; simpl;
    try destruct (GetLocalSite o); simpl; by destruct (localWizardEnv src).
Qed.

Lemma installQueries_List src : installQueries (events (listRun src)) = installTrace src.
Proof.
  unfold installQueries. destruct (List_run src) as (_ & _ & _ & -> & _).
  unfold expectedQueries. simpl.
  rewrite !List.filter_app, installTrace_filter.
  by destruct (clusterEnv src), (updateEnv src), (joinEnv src).
Qed.

Lemma consultInstall_pointer src :
  consultInstall src = true <->
  clusterOperation (listState src) = None \/
  exists op, clusterOperation (listState src) = Some op /\ Type_ op = OperationInstall.
Proof.
  destruct (List_run src) as (_ & -> & _). unfold consultInstall.
  destruct (clusterPointer src) as [op|].
  - rewrite bool_decide_eq_true. naive_solver.
  - naive_solver.
Qed.

Lemma installTrace_nil src : installTrace src = [] <-> consultInstall src = false.
Proof. unfold installTrace. destruct (consultInstall src); naive_solver. Qed.

(** C4.  The Cluster Operation Pointer is absent exactly when there is no
    cluster environment, the cluster backend fails or it returns no
    operation.  The install sources are queried iff the pointer is absent or
    points to an Install operation; when it points to an operation of another
    type, no query of the pass goes to the remote environment, its operator,
    the local wizard environment or its backend. *)
Theorem install_sources_consulted_iff (src : Sources) :
  let pointer := clusterOperation (listState src) in
  (pointer = None <->
     clusterEnv src = None \/ (exists e, clusterEnv src = Some (Err e))
     \/ clusterEnv src = Some (Ok [])) /\
  (installQueries (events (listRun src)) <> [] <->
     pointer = None \/ exists op, pointer = Some op /\ Type_ op = OperationInstall) /\
  (forall op, pointer = Some op -> Type_ op <> OperationInstall ->
     forall c, Query c ∈ events (listRun src) -> isInstallQuery c = false).
Proof.
  simpl. split_and!.
  - destruct (List_run src) as (_ & -> & _). unfold clusterPointer, clusterOps.
    destruct (clusterEnv src) as [[[|c cl]|e]|]; naive_solver.
  - rewrite installQueries_List, <- consultInstall_pointer, installTrace_nil.
    destruct (consultInstall src); naive_solver.
  - intros op Hp Ht c Hc.
    assert (Hno : installQueries (events (listRun src)) = []).
    { rewrite installQueries_List, installTrace_nil.
      destruct (consultInstall src) eqn:Hci; [|done].
      apply consultInstall_pointer in Hci. naive_solver. }
    destruct (isInstallQuery c) eqn:Hq; [|done].
    apply elem_of_sourceQueries in Hc.
    assert (c ∈ installQueries (events (listRun src))) as Hin.
    { unfold installQueries. apply list_elem_of_In, List.filter_In.
      split; [by apply list_elem_of_In|done]. }
    rewrite Hno in Hin. by apply elem_of_nil in Hin.
Qed.

Lemma isActiveInstallOperation_List src :
  isActiveInstallOperation (listState src) = consultInstall src.
Proof.
  unfold isActiveInstallOperation, consultInstall.
  by destruct (List_run src) as (_ & -> & _).
Qed.

(** C5, as amended.  When the install sources are consulted, the remote
    environment is queried first.  If the operator is reached, its last
    operation is fetched and merged when the fetch succeeds, the local wizard
    environment is not opened and [List] succeeds.  Otherwise the local
    wizard environment is opened: if it opens, its backend is queried, its
    operation is merged when the fetch succeeds and [List] succeeds; if it
    does not open, [List] fails with that error, wrapped with the message
    "failed to read local wizard environment", and the map holds the
    operations merged before. *)
Theorem install_sources_fallback (src : Sources) :
  isActiveInstallOperation (listState src) = true ->
  exists rest,
    installQueries (events (listRun src)) = NewRemoteEnvironment :: rest /\
    match operatorReached src with
    | Some (operator, key) =>
        rest = [OperatorGetLocalSite; OpsGetLastOperation key] /\
        listError src = None /\
        operations (listState src) =
          mergeAll (earlierSequence src
                    ++ optionList (reported (Some (GetLastOperation operator key))))
    | None =>
        rest = match remoteEnv src with
               | Ok (Some _) => [OperatorGetLocalSite]
               | _ => []
               end ++ wizardTrace src /\
        match localWizardEnv src with
        | Ok backend =>
            wizardTrace src = [NewLocalWizardEnvironment; StorageGetLastOperation WizardEnv] /\
            listError src = None /\
            operations (listState src) =
              mergeAll (earlierSequence src ++ optionList (reported (Some backend)))
        | Err e =>
            wizardTrace src = [NewLocalWizardEnvironment] /\
            listError src = Some (WrapMsg e "failed to read local wizard environment") /\
            operations (listState src) = mergeAll (earlierSequence src)
        end
    end.
Proof.
  rewrite isActiveInstallOperation_List. intros Hc.
  rewrite installQueries_List.
  destruct (List_run src) as (-> & _ & -> & _).
  unfold installTrace, listFailure, mergeSequence, installOp, operatorReached, wizardTrace.
  rewrite Hc. eexists. split; [done|].
  destruct (remoteEnv src) as [[operator|]|e]; [destruct (GetLocalSite operator)|..];
    simpl; try done; destruct (localWizardEnv src); simpl; by rewrite ?app_nil_r.
Qed.

(** C5, counterexample.  With no cluster, no reachable wizard and an
    unreadable local wizard environment, the install sources are consulted
    and [List] fails. *)
Lemma install_failure_is_fatal :
  ~ (forall src, isActiveInstallOperation (listState src) = true -> listError src = None).
Proof. intros H. specialize (H srcNothing eq_refl). vm_compute in H. discriminate. Qed.

(** Once the operator is reached, a failed fetch of its operation is only
    logged: the local wizard environment is not opened, nothing is merged
    and [List] succeeds. *)
Example operator_fetch_failure_no_fallback :
  installQueries (events (listRun srcEmptyOperator)) =
    [NewRemoteEnvironment; OperatorGetLocalSite;
     OpsGetLastOperation (mkSiteKey "system" "example.com")] /\
  listError srcEmptyOperator = None /\
  operations (listState srcEmptyOperator) = ∅.
Proof. split_and!; by vm_compute. Qed.

(** C6, as amended.  The map of a pass is the result of writing the
    operations of [mergeSequence] one after the other: the cluster backend's,
    then the update environment's, the join environment's and the install
    sources'.  For every ID the map holds the last operation of that sequence
    with that ID.  In particular an ID reported by both the cluster backend
    and the update environment is mapped to the update environment's version,
    unless the join environment or an install source reports that ID too. *)
Theorem merge_order (src : Sources) :
  operations (listState src) = mergeAll (mergeSequence src) /\
  (forall id, operations (listState src) !! id = lastWithID id (mergeSequence src)) /\
  (forall c u,
     c ∈ clusterOps src -> updateOp src = Some u -> ID c = ID u ->
     (forall j, joinOp src = Some j -> ID j <> ID u) ->
     (forall i, installOp src = Some i -> ID i <> ID u) ->
     operations (listState src) !! ID u = Some u).
Proof.
  destruct (List_run src) as (Hops & _). split_and!; [done| |].
  - intros id. rewrite Hops. apply mergeAll_lookup.
  - intros c u _ Hu _ Hj Hi. rewrite Hops.
    unfold mergeSequence, earlierSequence. rewrite Hu.
    change (optionList (Some u)) with [u]. rewrite !app_assoc.
    assert (Hskip : forall l o, (forall x, o = Some x -> ID x <> ID u) ->
              mergeAll (l ++ optionList o) !! ID u = mergeAll l !! ID u).
    { intros l [x|] Hx; simpl; [|by rewrite app_nil_r].
      rewrite mergeAll_snoc, lookup_insert_ne; [done|]. by apply Hx. }
    rewrite Hskip by done. rewrite Hskip by done.
    by rewrite mergeAll_snoc, lookup_insert_eq.
Qed.

(** C6, counterexample.  When the join environment reports the ID that the
    cluster backend and the update environment both report, the map holds the
    join environment's version. *)
Lemma update_version_overwritten :
  ~ (forall src c u,
       c ∈ clusterOps src -> updateOp src = Some u -> ID c = ID u ->
       operations (listState src) !! ID u = Some u).
Proof.
  intros H.
  pose proof (H srcSameID opA1 opA2 (list_elem_of_here _ _) eq_refl eq_refl) as Hu.
  vm_compute in Hu. discriminate Hu.
Qed.

Lemma filter_Permutation_bool {A} (f : A -> bool) (l1 l2 : list A) :
  l1 ≡ₚ l2 -> List.filter f l1 ≡ₚ List.filter f l2.
Proof.
  induction 1 as [|x l1 l2 _ IH|x y l|l1 l2 l3 _ IH1 _ IH2]; simpl.
  - done.
  - destruct (f x); by rewrite IH.
  - destruct (f x), (f y); try done. apply Permutation_swap.
  - by rewrite IH1.
Qed.

Lemma getActiveOperationFromList_spec ops :
  match getActiveOperationFromList ops with
  | Ok op =>
      exists before after,
        ops = before ++ op :: after /\
        Forall (fun o => IsCompleted o = true) before /\ IsCompleted op = false
  | Err e =>
      Forall (fun o => IsCompleted o = true) ops /\
      e = NotFound "no active operations found"
  end.
Proof.
  induction ops as [|o ops IH]; simpl; [done|].
  destruct (IsCompleted o) eqn:Ho; simpl.
  - destruct (getActiveOperationFromList ops) as [op|e].
    + destruct IH as (before & after & -> & Hb & Hop).
      exists (o :: before), after. split_and!; [done|by constructor|done].
    + destruct IH as [Hall ->]. split; [by constructor|done].
  - exists [], ops. done.
Qed.

Section Resolution.
Variable rangeMap : gmap string SiteOperation -> list (string * SiteOperation).
Variable sortSlice :
  (SiteOperation -> SiteOperation -> bool) -> list SiteOperation -> list SiteOperation.
Hypothesis range_ok : RangesMaps rangeMap.
Hypothesis sort_ok : SortsSlices sortSlice.

#[local] Abbreviation getBackendOperations' := (getBackendOperations rangeMap sortSlice).
#[local] Abbreviation getLastOperation' := (getLastOperation rangeMap sortSlice).
#[local] Abbreviation getActiveOperation' := (getActiveOperation rangeMap sortSlice).

Lemma getBackendOperations_run src id :
  getBackendOperations' src id =
    (match listError src with
     | Some e => Err (Wrap e)
     | None =>
         Ok (sortSlice createdAfter
               (List.filter (matchesID id)
                  (List.map snd (rangeMap (operations (listState src))))))
     end, events (listRun src)).
Proof.
  unfold getBackendOperations, listError, listState, listRun, value, events.
  destruct (List src newBackendOperations) as [[[e|] st] evs]; simpl;
    by rewrite app_nil_r.
Qed.

Lemma resolved_candidates src id ops :
  value (getBackendOperations' src id) = Ok ops ->
  listError src = None /\
  ops ≡ₚ candidates src id /\
  StronglySorted (fun a b => (Created b <= Created a)%Z) ops.
Proof.
  rewrite getBackendOperations_run. unfold value. simpl.
  destruct (listError src); [done|]. intros [= <-]. split_and!; [done| |].
  - destruct (sort_ok createdAfter
      (List.filter (matchesID id)
         (List.map snd (rangeMap (operations (listState src)))))) as [Hp _].
    etrans; [exact Hp|].
    apply filter_Permutation_bool, Permutation_map, range_ok.
  - destruct (sort_ok createdAfter
      (List.filter (matchesID id)
         (List.map snd (rangeMap (operations (listState src)))))) as [_ Hs].
    specialize (Hs createdAfter_order).
    induction Hs as [|a l _ IH Ha]; constructor; [done|].
    eapply Forall_impl; [exact Ha|]. intros b Hb. simpl in Hb.
    unfold createdAfter, After in Hb. by apply Z.ltb_ge in Hb.
Qed.

Lemma candidates_resolved src id :
  listError src = None ->
  exists ops, value (getBackendOperations' src id) = Ok ops.
Proof.
  intros He. rewrite getBackendOperations_run, He. by eexists.
Qed.

Lemma getBackendOperations_events src id :
  events (getBackendOperations' src id) = events (listRun src).
Proof. by rewrite getBackendOperations_run. Qed.

Lemma getActiveOperation_run src id :
  getActiveOperation' src id =
    (match value (getBackendOperations' src id) with
     | Err e => Err (Wrap e)
     | Ok [] => Err (noOperation id)
     | Ok ops =>
         match getActiveOperationFromList ops with
         | Err e => Err (Wrap e)
         | Ok op => Ok op
         end
     end,
     events (listRun src) ++ fetched (value (getBackendOperations' src id))).
Proof.
  rewrite (M_eta (getActiveOperation' src id)).
  unfold getActiveOperation.
  rewrite bind_value, bind_events, getBackendOperations_events.
  destruct (value (getBackendOperations' src id)) as [[|o ops]|e]; [done| |done].
  unfold fetched. destruct (getActiveOperationFromList (o :: ops)) eqn:Hact; 
  rewrite bind_value, bind_events; cbn [value events fst snd logf emit ret app]; done.
Qed.

Lemma getLastOperation_run src id :
  getLastOperation' src id =
    (match value (getBackendOperations' src id) with
     | Err e => Err (Wrap e)
     | Ok [] => Err (noOperation id)
     | Ok (first :: _) => Ok first
     end,
     events (listRun src) ++ fetched (value (getBackendOperations' src id)) ++
     match value (getBackendOperations' src id) with
     | Ok ((first :: rest) as ops) =>
         if Nat.eqb (length ops) 1 && negb (String.eqb id EmptyString)
         then [Log (mkLog DebugLevel "Fetched operation by ID." None None [first])]
         else if negb (Nat.eqb (length ops) 1)
              then [Log (mkLog InfoLevel multipleOperations None None ops)]
              else []
     | _ => []
     end).
Proof.
  rewrite (M_eta (getLastOperation' src id)).
  unfold getLastOperation.
  rewrite bind_value, bind_events, getBackendOperations_events.
  destruct (value (getBackendOperations' src id)) as [[|o ops]|e]; [done| |done].
  unfold fetched.
  generalize (Nat.eqb (length (o :: ops)) 1). intros b.
  by destruct b, (String.eqb id EmptyString).
Qed.
End Resolution.


(** Every entry of the merged map is filed under its own ID. *)
Lemma mergeAll_key l id op : mergeAll l !! id = Some op -> ID op = id.
Proof.
  rewrite mergeAll_lookup. unfold lastWithID. intros Hl.
  apply last_Some_elem_of, list_elem_of_In, List.filter_In in Hl as [_ Heq].
  by apply String.eqb_eq in Heq.
Qed.

Lemma elem_of_candidates src id op :
  op ∈ candidates src id <->
  operations (listState src) !! ID op = Some op /\ matchesID id op = true.
Proof.
  unfold candidates. rewrite list_elem_of_In, List.filter_In, <- list_elem_of_In.
  destruct (List_run src) as (Hops & _). rewrite Hops.
  split; intros [Hin Hm]; (split; [|done]).
  - apply list_elem_of_In, List.in_map_iff in Hin as ([k v] & <- & Hkv).
    apply list_elem_of_In, elem_of_map_to_list in Hkv. simpl.
    by rewrite (mergeAll_key _ _ _ Hkv).
  - apply list_elem_of_In, List.in_map_iff. exists (ID op, op). split; [done|].
    by apply list_elem_of_In, elem_of_map_to_list.
Qed.

Lemma dispatchTable_tableCall handler a params op :
  dispatchTable handler a params op =
    match tableCall a params op with
    | Some call => Some (tableResult handler call, [Invoke call])
    | None => None
    end.
Proof.
  unfold dispatchTable, tableCall.
  destruct (Type_ op), a; try reflexivity; by destruct (Installer_ params) as [[|name]|].
Qed.

Section QueriesAndDispatch.
Variable rangeMap : gmap string SiteOperation -> list (string * SiteOperation).
Variable sortSlice :
  (SiteOperation -> SiteOperation -> bool) -> list SiteOperation -> list SiteOperation.
Variable RootPhase : string.
Variable fmtQ : OperationType -> string.
Variable handler : HandlerCall -> option error.
Hypothesis range_ok : RangesMaps rangeMap.
Hypothesis sort_ok : SortsSlices sortSlice.

#[local] Abbreviation getBackendOperations' := (getBackendOperations rangeMap sortSlice).
#[local] Abbreviation getLastOperation' := (getLastOperation rangeMap sortSlice).
#[local] Abbreviation getActiveOperation' := (getActiveOperation rangeMap sortSlice).
#[local] Abbreviation entryPoint' := (entryPoint rangeMap sortSlice fmtQ handler).
#[local] Abbreviation ExecutePhase' := (ExecutePhase rangeMap sortSlice fmtQ handler).
#[local] Abbreviation ResumeOperation' :=
  (ResumeOperation rangeMap sortSlice RootPhase fmtQ handler).

(** C1.  Let [ops] be the operations a pass hands to [getActiveOperation]: the
    candidates that match the ID filter, sorted by [Created] descending.  If
    one of them is not completed, [getActiveOperation] returns the first
    non-completed operation of [ops]: every operation before it is completed,
    it is itself not completed, and no non-completed candidate was created
    later.  If [ops] is not empty and every candidate is completed, it fails
    with a NotFound error whose message is "no active operations found". *)
Theorem getActiveOperation_most_recent_incomplete src id ops :
  value (getBackendOperations' src id) = Ok ops ->
  (ops ≡ₚ candidates src id /\
   StronglySorted (fun a b => (Created b <= Created a)%Z) ops) /\
  (Exists (fun o => IsCompleted o = false) ops ->
   exists op before after,
     value (getActiveOperation' src id) = Ok op /\
     ops = before ++ op :: after /\
     Forall (fun o => IsCompleted o = true) before /\
     IsCompleted op = false /\
     op ∈ candidates src id /\
     forall o, o ∈ candidates src id -> IsCompleted o = false ->
               (Created o <= Created op)%Z) /\
  (ops <> [] -> Forall (fun o => IsCompleted o = true) ops ->
   exists e,
     value (getActiveOperation' src id) = Err e /\
     kind e = NotFoundKind /\ message e = "no active operations found").
Proof.
  intros Hops. destruct (resolved_candidates _ _ range_ok sort_ok _ _ _ Hops) as (_ & Hperm & Hsorted).
  rewrite (getActiveOperation_run rangeMap sortSlice), Hops. unfold value. simpl.
  pose proof (getActiveOperationFromList_spec ops) as Hspec.
  split_and!; [done..| |].
  - intros Hex. destruct ops as [|o0 ops0]; [by apply Exists_nil in Hex|].
    destruct (getActiveOperationFromList (o0 :: ops0)) as [op|e].
    + destruct Hspec as (before & after & Heq & Hbefore & Hop).
      exists op, before, after. split_and!; try done.
      * rewrite <- Hperm, Heq. set_solver.
      * intros o Ho Hoc. rewrite <- Hperm, Heq in Ho.
        apply elem_of_app in Ho as [Ho|Ho].
        { rewrite Forall_forall in Hbefore. specialize (Hbefore o Ho). congruence. }
        apply elem_of_cons in Ho as [->|Ho]; [lia|].
        rewrite Heq in Hsorted. apply StronglySorted_app_1_r in Hsorted.
        apply StronglySorted_cons in Hsorted as [Hle _].
        rewrite Forall_forall in Hle. by apply Hle.
    + destruct Hspec as [Hall _]. apply Exists_exists in Hex as (o & Ho & Hoc).
      rewrite Forall_forall in Hall. specialize (Hall o Ho). congruence.
  - intros Hne Hall. destruct ops as [|o0 ops0]; [done|].
    destruct (getActiveOperationFromList (o0 :: ops0)) as [op|e].
    + destruct Hspec as (before & after & Heq & _ & Hop).
      rewrite Forall_forall in Hall. rewrite (Hall op) in Hop; [done|].
      rewrite Heq. set_solver.
    + destruct Hspec as [_ ->]. by eexists.
Qed.

(** C7.  Let [ops] be the operations a pass hands to [getLastOperation], a
    rearrangement of the candidates that match the ID filter.  When [ops] is
    not empty, [getLastOperation] returns a candidate whose [Created] is
    maximal among the candidates, not an error; when more than one candidate
    remains it logs the notice [multipleOperations] (the source emits it
    with [log.Infof]) listing all of [ops]. *)
Theorem getLastOperation_most_recent src id ops :
  value (getBackendOperations' src id) = Ok ops ->
  ops <> [] ->
  ops ≡ₚ candidates src id /\
  exists op,
    value (getLastOperation' src id) = Ok op /\
    op ∈ candidates src id /\
    (forall o, o ∈ candidates src id -> (Created o <= Created op)%Z) /\
    (1 < length (candidates src id) ->
     Log (mkLog InfoLevel multipleOperations None None ops)
       ∈ events (getLastOperation' src id)).
Proof.
  intros Hops Hne.
  destruct (resolved_candidates _ _ range_ok sort_ok _ _ _ Hops) as (_ & Hperm & Hsorted).
  split; [done|].
  rewrite (getLastOperation_run rangeMap sortSlice), Hops. unfold value, events. simpl.
  destruct ops as [|first rest]; [done|].
  exists first. split_and!; [done| | |].
  - rewrite <- Hperm. set_solver.
  - intros o Ho. rewrite <- Hperm in Ho.
    apply elem_of_cons in Ho as [->|Ho]; [lia|].
    apply StronglySorted_cons in Hsorted as [Hle _].
    rewrite Forall_forall in Hle. by apply Hle.
  - intros Hlen. rewrite <- Hperm in Hlen. simpl in Hlen.
    destruct rest as [|second rest]; [simpl in Hlen; lia|]. simpl.
    set_solver.
Qed.

(** C8.  When the list of operations that match the ID filter is empty, both
    [getLastOperation] and [getActiveOperation] fail with a NotFound error;
    the message is "no operation found" for the empty filter and
    "no operation with ID X found" for the filter X. *)
Theorem empty_candidates_not_found src id :
  value (getBackendOperations' src id) = Ok [] ->
  let msg := if String.eqb id EmptyString then "no operation found"
             else "no operation with ID " +:+ id +:+ " found" in
  candidates src id = [] /\
  (exists e, value (getLastOperation' src id) = Err e /\
             kind e = NotFoundKind /\ message e = msg) /\
  (exists e, value (getActiveOperation' src id) = Err e /\
             kind e = NotFoundKind /\ message e = msg).
Proof.
  intros Hops.
  destruct (resolved_candidates _ _ range_ok sort_ok _ _ _ Hops) as (_ & Hperm & _).
  apply Permutation_nil_l in Hperm.
  rewrite (getLastOperation_run rangeMap sortSlice),
    (getActiveOperation_run rangeMap sortSlice), Hops.
  unfold value, noOperation. simpl fst.
  split; [done|].
  split; eexists; (split; [done|]); by destruct (String.eqb id EmptyString).
Qed.

Lemma entryPoint_run a src params :
  entryPoint' a src params =
    match value (getActiveOperation' src (OperationID params)) with
    | Err e => (Some (Wrap e), events (getActiveOperation' src (OperationID params)))
    | Ok op =>
        match dispatchTable handler a params op with
        | Some h =>
            (value h, events (getActiveOperation' src (OperationID params)) ++ events h)
        | None =>
            (Some (BadParameter ("operation type " +:+ fmtQ (Type_ op)
                                 +:+ " does not support plan " +:+ actionName a)),
             events (getActiveOperation' src (OperationID params)))
        end
    end.
Proof.
  unfold entryPoint, ExecutePhase, RollbackPhase,
    completeOperationPlan, dispatchTable, unsupported.
  destruct (getActiveOperation rangeMap sortSlice src (OperationID params))
    as [[op|e] evs].
  - unfold value, events, bind. simpl.
    destruct a, (Type_ op); simpl; rewrite ?app_nil_r; try done;
      by destruct (installerOrDefault (Installer_ params)).
  - unfold value, events, bind. destruct a; simpl; by rewrite app_nil_r.
Qed.

(** C2.  For a resolved operation [op], the entry point of every action does
    what the table of section 4.2 says for [(Type_ op, a)]: when the table
    names a handler, the entry point invokes that handler with the caller's
    parameters and [op], and nothing else, and returns its result; for the
    Install row that is the method of the installer the parameters carry,
    and the built-in install handler (its result wrapped) when they carry
    none.  When the table has no entry (rollback or completion of a garbage
    collection, and every type outside the table) the entry point invokes
    nothing and fails with a BadParameter error that names the operation
    type and the action. *)
Theorem dispatch_follows_table a src params op :
  value (getActiveOperation' src (OperationID params)) = Ok op ->
  (tableCall a params op = None <->
     (Type_ op = OperationGarbageCollect /\ a <> Execute) \/
     exists name, Type_ op = OperationOther name) /\
  match tableCall a params op with
  | Some call =>
      entryPoint' a src params =
        (tableResult handler call,
         events (getActiveOperation' src (OperationID params)) ++ [Invoke call])
  | None =>
      exists e,
        entryPoint' a src params =
          (Some e, events (getActiveOperation' src (OperationID params))) /\
        kind e = BadParameterKind /\
        message e = "operation type " +:+ fmtQ (Type_ op)
                    +:+ " does not support plan " +:+ actionName a
  end.
Proof.
  intros Hop. rewrite entryPoint_run, Hop, dispatchTable_tableCall.
  split.
  - unfold tableCall.
    destruct (Type_ op), a; try destruct (Installer_ params) as [[|name]|];
      split; intros H; try discriminate H; try reflexivity;
      try (by right; eexists); try (left; split; [reflexivity|discriminate]);
      destruct H as [[Ht Ha]|[name' Ht]]; try discriminate Ht; by destruct Ha.
  - destruct (tableCall a params op) as [call|]; [reflexivity|]. by eexists.
Qed.

(** C10.  [ExecutePhase], [RollbackPhase] and [completeOperationPlan] resolve
    their target with [getActiveOperation]: if every operation that matches
    the ID filter is completed, [getActiveOperation] fails, the entry point
    returns that failure wrapped, it is a NotFound error, and no handler is
    invoked. *)
Theorem completed_never_dispatched a src params ops :
  value (getBackendOperations' src (OperationID params)) = Ok ops ->
  Forall (fun o => IsCompleted o = true) ops ->
  exists e,
    value (getActiveOperation' src (OperationID params)) = Err e /\
    entryPoint' a src params =
      (Some (Wrap e), events (getActiveOperation' src (OperationID params))) /\
    IsNotFound (Wrap e) = true /\
    handlerCalls (events (entryPoint' a src params)) = [].
Proof.
  intros Hops Hall. rewrite entryPoint_run.
  rewrite (getActiveOperation_run rangeMap sortSlice), Hops.
  unfold value, events. simpl.
  destruct (List_run src) as (_ & _ & _ & _ & Hnone). unfold events in Hnone.
  pose proof (getActiveOperationFromList_spec ops) as Hspec.
  destruct ops as [|o ops0].
  { eexists. split_and!; [done|done| |by simpl; rewrite handlerCalls_app, Hnone].
    unfold noOperation. by destruct (String.eqb (OperationID params) EmptyString). }
  destruct (getActiveOperationFromList (o :: ops0)) as [op|e].
  - destruct Hspec as (before & after & Heq & _ & Hop).
    rewrite Forall_forall in Hall. rewrite (Hall op) in Hop; [done|].
    rewrite Heq. set_solver.
  - destruct Hspec as [_ ->].
    eexists. split_and!; [done|done|done|by simpl; rewrite handlerCalls_app, Hnone].
Qed.

(** C3.  [ResumeOperation] calls [ExecutePhase] with the phase ID replaced by
    [RootPhase] and with the installer of the parameters, [defaultInstaller]
    when they carry none.  If [ExecutePhase] returns nil, so does
    [ResumeOperation]; if it fails with a NotFound error, [ResumeOperation]
    calls [Restart] on that installer (the injected one's [Restart] when one
    was supplied, [startInstall] otherwise) and returns what [Restart]
    returns; every other failure is returned with its kind and message
    unchanged and [Restart] is not called.  In particular, when the resolver
    finds no active operation (its failure is a NotFound error), [Restart]
    is called. *)
Theorem ResumeOperation_restarts src params :
  let installer := match Installer_ params with
                   | Some i => i
                   | None => defaultInstaller
                   end in
  let passed := {| PhaseID := RootPhase;
                   OperationID := OperationID params;
                   Force := Force params;
                   Timeout := Timeout params;
                   SkipVersionCheck := SkipVersionCheck params;
                   Installer_ := Some installer |} in
  let exec := ExecutePhase' src passed in
  let restart := match installer with
                 | defaultInstaller => startInstall
                 | injectedInstaller name => injectedRestart name
                 end in
  let restarted := match installer with
                   | defaultInstaller => WrapNil (WrapNil (handler startInstall))
                   | injectedInstaller name => WrapNil (handler (injectedRestart name))
                   end in
  match value exec with
  | None => ResumeOperation' src params = (None, events exec)
  | Some e =>
      if IsNotFound e
      then ResumeOperation' src params = (restarted, events exec ++ [Invoke restart])
      else exists e',
             ResumeOperation' src params = (Some e', events exec) /\
             kind e' = kind e /\ message e' = message e
  end /\
  (forall e,
     value (getActiveOperation' src (OperationID params)) = Err e ->
     IsNotFound e = true ->
     ResumeOperation' src params =
       (restarted,
        events (getActiveOperation' src (OperationID params)) ++ [Invoke restart])).
Proof.
  simpl.
  set (installer := match Installer_ params with Some i => i | None => defaultInstaller end).
  set (passed := {| PhaseID := RootPhase; OperationID := OperationID params;
                    Force := Force params; Timeout := Timeout params;
                    SkipVersionCheck := SkipVersionCheck params;
                    Installer_ := Some installer |}).
  assert (Hresume :
    match value (ExecutePhase' src passed) with
    | None => ResumeOperation' src params = (None, events (ExecutePhase' src passed))
    | Some e =>
        if IsNotFound e
        then ResumeOperation' src params =
               (match installer with
                | defaultInstaller => WrapNil (WrapNil (handler startInstall))
                | injectedInstaller name => WrapNil (handler (injectedRestart name))
                end,
                events (ExecutePhase' src passed) ++
                [Invoke match installer with
                        | defaultInstaller => startInstall
                        | injectedInstaller name => injectedRestart name
                        end])
        else exists e',
               ResumeOperation' src params = (Some e', events (ExecutePhase' src passed)) /\
               kind e' = kind e /\ message e' = message e
    end).
  { unfold ResumeOperation, installerOrDefault. fold installer. fold passed.
    destruct (ExecutePhase' src passed) as [[e|] evs];
      unfold bind, value, events; simpl; [|by rewrite app_nil_r].
    destruct (IsNotFound e); simpl.
    + by destruct installer.
    + eexists. by rewrite app_nil_r. }
  split; [exact Hresume|].
  intros e He Hnf.
  pose proof (entryPoint_run Execute src passed) as Hexec.
  simpl in Hexec. rewrite He in Hexec. rewrite Hexec in Hresume.
  unfold value, events in Hresume. simpl in Hresume.
  replace (IsNotFound (Wrap e)) with true in Hresume by done.
  exact Hresume.
Qed.
End QueriesAndDispatch.


(** C9, as amended.  Two runs of a pass over the same source responses may
    differ in the iteration order of the map and in how [sort.Slice] arranges
    equal elements.  Both runs fail with the same error or both succeed; when
    they succeed they made the same queries and read the same merged map,
    their candidate lists are permutations of each other, and the operations [getLastOperation]
    returns have the same [Created]; they are the same operation when no
    other candidate is as recent as the one returned. *)
Theorem resolution_deterministic rangeMap1 sortSlice1 rangeMap2 sortSlice2 src id :
  RangesMaps rangeMap1 -> SortsSlices sortSlice1 ->
  RangesMaps rangeMap2 -> SortsSlices sortSlice2 ->
  let run1 := getLastOperation rangeMap1 sortSlice1 src id in
  let run2 := getLastOperation rangeMap2 sortSlice2 src id in
  match value (getBackendOperations rangeMap1 sortSlice1 src id),
        value (getBackendOperations rangeMap2 sortSlice2 src id) with
  | Ok ops1, Ok ops2 =>
      ops1 ≡ₚ ops2 /\
      events (getBackendOperations rangeMap1 sortSlice1 src id) =
        events (getBackendOperations rangeMap2 sortSlice2 src id) /\
      forall o, o ∈ ops1 ->
        operations (listState src) !! ID o = lastWithID (ID o) (mergeSequence src)
        /\ operations (listState src) !! ID o = Some o
  | Err e1, Err e2 => e1 = e2
  | _, _ => False
  end /\
  match value run1, value run2 with
  | Ok op1, Ok op2 =>
      Created op1 = Created op2 /\
      ((forall o, o ∈ candidates src id -> o <> op1 -> (Created o < Created op1)%Z) ->
       op1 = op2)
  | Err e1, Err e2 => e1 = e2
  | _, _ => False
  end.
Proof.
  intros Hr1 Hs1 Hr2 Hs2. simpl.
  rewrite !getLastOperation_run, !getBackendOperations_run. unfold value. simpl.
  destruct (listError src) as [e|] eqn:Herr; [done|].
  set (ops1 := sortSlice1 _ _). set (ops2 := sortSlice2 _ _).
  assert (H1 : value (getBackendOperations rangeMap1 sortSlice1 src id) = Ok ops1)
    by by rewrite getBackendOperations_run, Herr.
  assert (H2 : value (getBackendOperations rangeMap2 sortSlice2 src id) = Ok ops2)
    by by rewrite getBackendOperations_run, Herr.
  destruct (resolved_candidates _ _ Hr1 Hs1 _ _ _ H1) as (_ & Hp1 & Hsorted1).
  destruct (resolved_candidates _ _ Hr2 Hs2 _ _ _ H2) as (_ & Hp2 & Hsorted2).
  clearbody ops1 ops2. split.
  { split; [by rewrite Hp1, Hp2|].
    split; [done|].
    intros o Ho. rewrite Hp1 in Ho.
    apply elem_of_candidates in Ho as [Ho _]. split; [|done].
    destruct (List_run src) as (-> & _). apply mergeAll_lookup. }
  destruct ops1 as [|op1 rest1], ops2 as [|op2 rest2].
  - done.
  - rewrite <- Hp1 in Hp2. by apply Permutation_nil_r in Hp2.
  - rewrite <- Hp2 in Hp1. by apply Permutation_nil_r in Hp1.
  - apply StronglySorted_cons in Hsorted1 as [Hle1 _].
    apply StronglySorted_cons in Hsorted2 as [Hle2 _].
    rewrite Forall_forall in Hle1, Hle2.
    assert (Hin1 : op1 ∈ op2 :: rest2) by (rewrite Hp2, <- Hp1; set_solver).
    assert (Hin2 : op2 ∈ op1 :: rest1) by (rewrite Hp1, <- Hp2; set_solver).
    assert (Hc12 : (Created op1 <= Created op2)%Z).
    { apply elem_of_cons in Hin1 as [->|Hin1]; [lia|by apply Hle2]. }
    assert (Hc21 : (Created op2 <= Created op1)%Z).
    { apply elem_of_cons in Hin2 as [->|Hin2]; [lia|by apply Hle1]. }
    split; [lia|]. intros Huniq.
    destruct (decide (op2 = op1)) as [->|Hne]; [done|].
    assert (op2 ∈ candidates src id) as Hc by (rewrite <- Hp2; set_solver).
    specialize (Huniq op2 Hc Hne). lia.
Qed.

(** C9, counterexample.  With two operations created at the same time, two
    iteration orders of the same map make [getLastOperation] return
    different operations. *)
Lemma tie_broken_by_iteration_order :
  ~ (forall rangeMap1 sortSlice1 rangeMap2 sortSlice2,
       RangesMaps rangeMap1 -> SortsSlices sortSlice1 ->
       RangesMaps rangeMap2 -> SortsSlices sortSlice2 ->
       forall src id,
         value (getLastOperation rangeMap1 sortSlice1 src id) =
         value (getLastOperation rangeMap2 sortSlice2 src id)).
Proof.
  intros H.
  specialize (H rangeForward insertionSort rangeBackward insertionSort
                rangeForward_ranges insertionSort_sorts
                rangeBackward_ranges insertionSort_sorts srcTie EmptyString).
  vm_compute in H. discriminate H.
Qed.

(** ** The theorems at sample inputs *)

Lemma install_sources_fallback_witness :
  exists rest,
    installQueries (events (listRun srcInstall)) = NewRemoteEnvironment :: rest /\
    rest = [OperatorGetLocalSite; OpsGetLastOperation (mkSiteKey "system" "example.com")] /\
    listError srcInstall = None /\
    operations (listState srcInstall) = mergeAll [opI].
Proof.
  destruct (install_sources_fallback srcInstall eq_refl) as (rest & Hq & Hr & He & Ho).
  exists rest. done.
Defined.

Lemma getActiveOperation_most_recent_incomplete_witness :
  (exists op,
     value (getActiveOperation rangeForward insertionSort srcUpdate EmptyString) = Ok op /\
     IsCompleted op = false /\ op ∈ candidates srcUpdate EmptyString) /\
  (exists e,
     value (getActiveOperation rangeForward insertionSort srcCompleted EmptyString) = Err e /\
     kind e = NotFoundKind /\ message e = "no active operations found").
Proof.
  split.
  - destruct (getActiveOperation_most_recent_incomplete rangeForward insertionSort
                rangeForward_ranges insertionSort_sorts srcUpdate EmptyString
                [opB; opA1]) as (_ & Hactive & _); [by vm_compute|].
    destruct Hactive as (op & before & after & Hv & _ & _ & Hc & Hin & _).
    { apply Exists_cons_hd. reflexivity. }
    exists op. done.
  - destruct (getActiveOperation_most_recent_incomplete rangeForward insertionSort
                rangeForward_ranges insertionSort_sorts srcCompleted EmptyString
                [opD; opA1]) as (_ & _ & Hnone); [by vm_compute|].
    apply Hnone; [done|]. repeat constructor.
Defined.

Lemma dispatch_follows_table_witness :
  (exists e,
     entryPoint rangeForward insertionSort quoteType handlersSucceed Rollback srcGC
       sampleParams =
       (Some e, events (getActiveOperation rangeForward insertionSort srcGC EmptyString)) /\
     kind e = BadParameterKind /\
     message e = "operation type " +:+ quoteType OperationGarbageCollect
                 +:+ " does not support plan rollback") /\
  entryPoint rangeForward insertionSort quoteType handlersSucceed Execute srcGC
    sampleParams =
    (None, events (getActiveOperation rangeForward insertionSort srcGC EmptyString)
           ++ [Invoke (executeGarbageCollectPhase sampleParams opG)]) /\
  entryPoint rangeForward insertionSort quoteType handlersSucceed Execute srcInstall
    sampleParams =
    (None, events (getActiveOperation rangeForward insertionSort srcInstall EmptyString)
           ++ [Invoke (executeInstallPhase sampleParams opI)]) /\
  entryPoint rangeForward insertionSort quoteType handlersSucceed Rollback srcInstall
    injectedParams =
    (None, events (getActiveOperation rangeForward insertionSort srcInstall EmptyString)
           ++ [Invoke (injectedRollbackPhase "fake" injectedParams opI)]).
Proof.
  split_and!.
  - destruct (dispatch_follows_table rangeForward insertionSort quoteType
                handlersSucceed Rollback srcGC sampleParams opG) as [_ H];
      [by vm_compute|]. exact H.
  - destruct (dispatch_follows_table rangeForward insertionSort quoteType
                handlersSucceed Execute srcGC sampleParams opG) as [_ H];
      [by vm_compute|]. exact H.
  - destruct (dispatch_follows_table rangeForward insertionSort quoteType
                handlersSucceed Execute srcInstall sampleParams opI) as [_ H];
      [by vm_compute|]. exact H.
  - destruct (dispatch_follows_table rangeForward insertionSort quoteType
                handlersSucceed Rollback srcInstall injectedParams opI) as [_ H];
      [by vm_compute|]. exact H.
Defined.

Lemma install_sources_consulted_iff_witness :
  ~ Query NewRemoteEnvironment ∈ events (listRun srcUpdate) /\
  ~ Query NewLocalWizardEnvironment ∈ events (listRun srcUpdate).
Proof.
  destruct (install_sources_consulted_iff srcUpdate) as (_ & _ & H).
  split; intros Hin;
    specialize (H opA1 eq_refl ltac:(discriminate) _ Hin); discriminate H.
Defined.

Lemma merge_order_witness : operations (listState srcOverride) !! "A" = Some opA2.
Proof.
  destruct (merge_order srcOverride) as (_ & _ & H).
  apply (H opA1 opA2).
  - apply list_elem_of_here.
  - reflexivity.
  - reflexivity.
  - intros j Hj. discriminate Hj.
  - intros i Hi. vm_compute in Hi. discriminate Hi.
Defined.

Lemma getLastOperation_most_recent_witness :
  exists op,
    value (getLastOperation rangeForward insertionSort srcUpdate EmptyString) = Ok op /\
    (Created opA1 <= Created op)%Z /\
    Log (mkLog InfoLevel multipleOperations None None [opB; opA1])
      ∈ events (getLastOperation rangeForward insertionSort srcUpdate EmptyString).
Proof.
  destruct (getLastOperation_most_recent rangeForward insertionSort
              rangeForward_ranges insertionSort_sorts srcUpdate EmptyString
              [opB; opA1])
    as (_ & op & Hv & _ & Hmax & Hlog); [by vm_compute|discriminate|].
  exists op. split_and!; [done| |].
  - apply Hmax. replace (candidates srcUpdate EmptyString) with [opA1; opB]
      by (by vm_compute). apply list_elem_of_here.
  - apply Hlog. vm_compute. lia.
Defined.

Lemma empty_candidates_not_found_witness :
  (exists e,
     value (getLastOperation rangeForward insertionSort srcEmptyWizard EmptyString) = Err e /\
     kind e = NotFoundKind /\ message e = "no operation found") /\
  (exists e,
     value (getActiveOperation rangeForward insertionSort srcUpdate "Z") = Err e /\
     kind e = NotFoundKind /\ message e = "no operation with ID Z found").
Proof.
  split.
  - destruct (empty_candidates_not_found rangeForward insertionSort
                rangeForward_ranges insertionSort_sorts srcEmptyWizard EmptyString)
      as (_ & H & _); [by vm_compute|]. exact H.
  - destruct (empty_candidates_not_found rangeForward insertionSort
                rangeForward_ranges insertionSort_sorts srcUpdate "Z")
      as (_ & _ & H); [by vm_compute|]. exact H.
Defined.

Lemma completed_never_dispatched_witness :
  exists e,
    value (entryPoint rangeForward insertionSort quoteType handlersSucceed Execute
             srcCompleted sampleParams) = Some e /\
    IsNotFound e = true /\
    handlerCalls
      (events (entryPoint rangeForward insertionSort quoteType handlersSucceed Execute
                 srcCompleted sampleParams)) = [].
Proof.
  destruct (completed_never_dispatched rangeForward insertionSort quoteType
              handlersSucceed rangeForward_ranges insertionSort_sorts Execute
              srcCompleted sampleParams [opD; opA1]) as (e & _ & Hrun & Hnf & Hnone).
  - by vm_compute.
  - repeat constructor.
  - exists (Wrap e). rewrite Hrun at 1. done.
Defined.

Lemma resolution_deterministic_witness :
  exists op,
    value (getLastOperation rangeForward insertionSort srcUpdate EmptyString) = Ok op /\
    value (getLastOperation rangeBackward insertionSort srcUpdate EmptyString) = Ok op.
Proof.
  pose proof (resolution_deterministic rangeForward insertionSort rangeBackward
                insertionSort srcUpdate EmptyString rangeForward_ranges
                insertionSort_sorts rangeBackward_ranges insertionSort_sorts)
    as [_ H].
  destruct (value (getLastOperation rangeForward insertionSort srcUpdate EmptyString))
    as [op1|] eqn:H1;
  destruct (value (getLastOperation rangeBackward insertionSort srcUpdate EmptyString))
    as [op2|] eqn:H2; try done.
  destruct H as [_ Huniq]. exists op1. split; [done|]. f_equal. symmetry.
  apply Huniq. intros o Ho Hne.
  vm_compute in H1. injection H1 as <-.
  replace (candidates srcUpdate EmptyString) with [opA1; opB] in Ho by (by vm_compute).
  apply elem_of_cons in Ho as [->|Ho]; [by vm_compute|].
  apply list_elem_of_singleton in Ho. done.
Defined.

Lemma ResumeOperation_restarts_witness :
  (value (ResumeOperation rangeForward insertionSort sampleRootPhase quoteType
            handlersSucceed srcEmptyWizard sampleParams) = None /\
   handlerCalls
     (events (ResumeOperation rangeForward insertionSort sampleRootPhase quoteType
                handlersSucceed srcEmptyWizard sampleParams)) = [startInstall]) /\
  handlerCalls
    (events (ResumeOperation rangeForward insertionSort sampleRootPhase quoteType
               handlersSucceed srcEmptyWizard injectedParams)) = [injectedRestart "fake"].
Proof.
  split.
  - destruct (ResumeOperation_restarts rangeForward insertionSort sampleRootPhase
                quoteType handlersSucceed srcEmptyWizard sampleParams) as (_ & H).
    rewrite (H (NotFound "no operation found")); [|by vm_compute|done].
    split; by vm_compute.
  - destruct (ResumeOperation_restarts rangeForward insertionSort sampleRootPhase
                quoteType handlersSucceed srcEmptyWizard injectedParams) as (_ & H).
    rewrite (H (NotFound "no operation found")); [|by vm_compute|done].
    by vm_compute.
Defined.

(** ** Further properties of the code *)

Lemma writeAll_snoc m l op : writeAll m (l ++ [op]) = <[ID op := op]> (writeAll m l).
Proof. unfold writeAll. by rewrite foldl_app. Qed.

Lemma writeAll_lookup m l k :
  writeAll m l !! k =
    match lastWithID k l with
    | Some op => Some op
    | None => m !! k
    end.
Proof.
  induction l as [|op l IH] using rev_ind; [done|].
  rewrite writeAll_snoc. unfold lastWithID in *. rewrite List.filter_app. simpl.
  destruct (String.eqb_spec (ID op) k) as [->|Hne].
  - by rewrite lookup_insert_eq, last_snoc.
  - by rewrite lookup_insert_ne, app_nil_r.
Qed.

(** X1.  [init] leaves the state alone when the cluster backend fails (the
    error comes back wrapped with "failed to query cluster operations") or
    returns nothing.  Otherwise the first operation becomes the pointer and
    is the map's entry for its ID, even when the backend lists that ID again;
    any other ID is mapped to the last operation listed with it, and IDs the
    backend does not list keep their entry. *)
Theorem init_records backend r :
  match backend with
  | Err e =>
      exists e',
        value (init backend r) = (Some e', r) /\
        kind e' = kind e /\ message e' = message e /\
        wraps e' = "failed to query cluster operations" :: wraps e
  | Ok [] => value (init backend r) = (None, r)
  | Ok (first :: rest) =>
      fst (value (init backend r)) = None /\
      clusterOperation (snd (value (init backend r))) = Some first /\
      operations (snd (value (init backend r))) !! ID first = Some first /\
      forall k, k <> ID first ->
        operations (snd (value (init backend r))) !! k =
          match lastWithID k rest with
          | Some op => Some op
          | None => operations r !! k
          end
  end.
Proof.
  destruct backend as [[|first rest]|e]; [done| |by eexists].
  unfold init, value, bind, emit, ret. simpl.
  split_and!; [done|done|by rewrite lookup_insert_eq|].
  intros k Hk. rewrite lookup_insert_ne by done.
  fold (writeAll (<[ID first:=first]> (operations r)) rest).
  rewrite writeAll_lookup. destruct (lastWithID k rest); [done|].
  by rewrite lookup_insert_ne.
Qed.

Lemma keysAreIDs_insert m op : keysAreIDs m -> keysAreIDs (<[ID op := op]> m).
Proof.
  intros Hm k op' Hl. destruct (decide (ID op = k)) as [<-|Hne].
  - rewrite lookup_insert_eq in Hl. by injection Hl as <-.
  - rewrite lookup_insert_ne in Hl by done. by apply Hm.
Qed.

Lemma keysAreIDs_writeAll m l : keysAreIDs m -> keysAreIDs (writeAll m l).
Proof.
  revert m. induction l as [|op l IH]; intros m Hm; [done|].
  simpl. apply IH. by apply keysAreIDs_insert.
Qed.

Lemma init_keysAreIDs backend r :
  keysAreIDs (operations r) -> keysAreIDs (operations (snd (value (init backend r)))).
Proof.
  intros Hr. destruct backend as [[|first rest]|e]; [done| |done].
  unfold init, value, bind, emit, ret. simpl.
  apply keysAreIDs_insert.
  fold (writeAll (<[ID first:=first]> (operations r)) rest).
  by apply keysAreIDs_writeAll, keysAreIDs_insert.
Qed.

Lemma getOperationAndUpdateCache_keysAreIDs getter context r :
  keysAreIDs (operations r) ->
  keysAreIDs (operations (snd (value (getOperationAndUpdateCache getter context r)))).
Proof.
  intros Hr. destruct getter as [c [op|e]]; unfold getOperationAndUpdateCache,
    getOperation, value, bind, emit, ret, logf; simpl; [|done].
  by apply keysAreIDs_insert.
Qed.

(** [List] changes the state only through [init] and
    [getOperationAndUpdateCache]. *)
Lemma List_preserves (P : backendOperations -> Prop) :
  (forall backend r, P r -> P (snd (value (init backend r)))) ->
  (forall getter context r,
     P r -> P (snd (value (getOperationAndUpdateCache getter context r)))) ->
  forall src r, P r -> P (snd (value (List src r))).
Proof.
  intros Hinit Hcache src r Hr. unfold List, listLocalWizard.
  repeat (rewrite bind_value; cbv beta).
  set (r1 := value (match clusterEnv src with Some _ => _ | None => _ end)).
  assert (H1 : P r1).
  { subst r1. destruct (clusterEnv src) as [backend|]; [|done].
    rewrite bind_value. specialize (Hinit backend r Hr).
    destruct (value (init backend r)) as [err r']. by rewrite bind_value. }
  clearbody r1.
  set (r2 := value (match updateEnv src with Some _ => _ | None => _ end)).
  assert (H2 : P r2).
  { subst r2. destruct (updateEnv src) as [backend|]; [|done].
    rewrite bind_value.
    specialize (Hcache (getOperationFromBackend UpdateEnv backend) "update" r1 H1).
    by destruct (value (getOperationAndUpdateCache _ _ r1)). }
  clearbody r2.
  set (r3 := value (match joinEnv src with Some _ => _ | None => _ end)).
  assert (H3 : P r3).
  { subst r3. destruct (joinEnv src) as [backend|]; [|done].
    rewrite bind_value.
    specialize (Hcache (getOperationFromBackend JoinEnv backend) "expand" r2 H2).
    by destruct (value (getOperationAndUpdateCache _ _ r2)). }
  clearbody r3.
  assert (Hwizard : forall err,
    P (snd (value (logf WarnLevel "Failed to comnect to wizard." err None [] ;;
                   emit (Query NewLocalWizardEnvironment) ;;
                   match localWizardEnv src with
                   | Ok backend =>
                       let* (_, r') := getOperationAndUpdateCache
                                         (getOperationFromBackend WizardEnv backend)
                                         "install" r3 in
                       ret (None, r')
                   | Err e =>
                       ret (Some (WrapMsg e "failed to read local wizard environment"), r3)
                   end)))).
  { intros err. rewrite !bind_value. destruct (localWizardEnv src) as [backend|e]; [|done].
    rewrite bind_value.
    specialize (Hcache (getOperationFromBackend WizardEnv backend) "install" r3 H3).
    by destruct (value (getOperationAndUpdateCache _ _ r3)). }
  destruct (isActiveInstallOperation r3); [|done].
  rewrite bind_value.
  destruct (remoteEnv src) as [[operator|]|e]; [|apply Hwizard..].
  rewrite bind_value. destruct (GetLocalSite operator) as [key|e]; [|apply Hwizard].
  rewrite bind_value.
  specialize (Hcache (getOperationFromOperator operator key) "install" r3 H3).
  by destruct (value (getOperationAndUpdateCache _ _ r3)).
Qed.

(** X2.  [List] keeps the map keyed by operation ID: if every entry of the
    map it starts from is filed under the ID of its operation, so is every
    entry of the map it leaves. *)
Theorem List_keeps_keys src r :
  keysAreIDs (operations r) -> keysAreIDs (operations (snd (value (List src r)))).
Proof.
  apply (List_preserves (fun r => keysAreIDs (operations r))).
  - apply init_keysAreIDs.
  - apply getOperationAndUpdateCache_keysAreIDs.
Qed.

Lemma writeAll_is_Some m l k : is_Some (m !! k) -> is_Some (writeAll m l !! k).
Proof.
  intros Hk. rewrite writeAll_lookup. by destruct (lastWithID k l).
Qed.

Lemma insert_is_Some (m : gmap string SiteOperation) op k :
  is_Some (m !! k) -> is_Some (<[ID op := op]> m !! k).
Proof. intros Hk. apply lookup_insert_is_Some'. by right. Qed.

Lemma init_operations backend r :
  operations (snd (value (init backend r))) =
    match backend with
    | Ok (first :: rest) =>
        <[ID first := first]> (writeAll (operations r) (first :: rest))
    | _ => operations r
    end.
Proof. by destruct backend as [[|first rest]|e]. Qed.

Lemma getOperationAndUpdateCache_state getter context r :
  snd (value (getOperationAndUpdateCache getter context r)) =
    match getter_answer getter with
    | Ok op => {| operations := <[ID op := op]> (operations r);
                  clusterOperation := clusterOperation r |}
    | Err _ => r
    end.
Proof. by destruct getter as [c [op|e]]. Qed.

(** X3.  [List] never removes an entry: an ID that is a key of the map it
    starts from is a key of the map it leaves. *)
Theorem List_never_removes src r k :
  is_Some (operations r !! k) ->
  is_Some (operations (snd (value (List src r))) !! k).
Proof.
  apply (List_preserves (fun r => is_Some (operations r !! k))).
  - intros backend r' Hk. rewrite init_operations.
    destruct backend as [[|first rest]|e]; [done| |done].
    by apply insert_is_Some, writeAll_is_Some.
  - intros getter context r' Hk. rewrite getOperationAndUpdateCache_state.
    destruct (getter_answer getter); [|done]. by apply insert_is_Some.
Qed.

(** X4.  Whenever the pointer is set, its ID is a key of the map: [List]
    keeps this true, whatever the later sources write. *)
Theorem List_pointer_in_map src r :
  (forall p, clusterOperation r = Some p -> is_Some (operations r !! ID p)) ->
  forall p, clusterOperation (snd (value (List src r))) = Some p ->
            is_Some (operations (snd (value (List src r))) !! ID p).
Proof.
  apply (List_preserves
           (fun r => forall p, clusterOperation r = Some p ->
                               is_Some (operations r !! ID p))).
  - intros backend r' Hr' p. destruct backend as [[|first rest]|e]; [by apply Hr'| |by apply Hr'].
    unfold init, value, bind, emit, ret. simpl. intros [= <-].
    by rewrite lookup_insert_eq.
  - intros getter context r' Hr' p. rewrite getOperationAndUpdateCache_state.
    destruct (getter_answer getter); [|by apply Hr'].
    simpl. intros Hp. by apply insert_is_Some, Hr'.
Qed.

(** X5.  [List] fails exactly when the install sources are consulted, the
    operator is not reached and the local wizard environment cannot be
    opened; the error is that environment's, wrapped with
    "failed to read local wizard environment".  No failure of the cluster
    backend, of the update or join environment, or of a fetch makes it
    fail. *)
Theorem List_fails_iff src :
  (listError src <> None <->
     isActiveInstallOperation (listState src) = true /\
     operatorReached src = None /\
     exists e, localWizardEnv src = Err e) /\
  (forall e', listError src = Some e' ->
     exists e, localWizardEnv src = Err e /\
               e' = WrapMsg e "failed to read local wizard environment").
Proof.
  rewrite isActiveInstallOperation_List.
  destruct (List_run src) as (_ & _ & -> & _). unfold listFailure.
  destruct (consultInstall src), (operatorReached src) as [[o k]|],
    (localWizardEnv src) as [b|e]; split; naive_solver.
Qed.

(** X6.  A source that fails counts as a source that is absent: two passes
    whose cluster backends deliver the same operations, whose update and join
    environments deliver the same operation (or none), and whose install
    sources answer alike, end with the same result and the same state, whatever
    the errors were. *)
Theorem List_ignores_source_failures src1 src2 :
  clusterOps src1 = clusterOps src2 ->
  updateOp src1 = updateOp src2 ->
  joinOp src1 = joinOp src2 ->
  remoteEnv src1 = remoteEnv src2 ->
  localWizardEnv src1 = localWizardEnv src2 ->
  value (listRun src1) = value (listRun src2).
Proof.
  intros Hc Hu Hj Hr Hw.
  assert (Hseq : mergeSequence src1 = mergeSequence src2 /\
                 listFailure src1 = listFailure src2 /\
                 clusterPointer src1 = clusterPointer src2).
  { unfold mergeSequence, earlierSequence, installOp, listFailure, consultInstall,
      operatorReached, clusterPointer. by rewrite Hc, Hu, Hj, Hr, Hw. }
  destruct Hseq as (Hseq & Hfail & Hptr).
  destruct (List_run src1) as (Ho1 & Hp1 & He1 & _).
  destruct (List_run src2) as (Ho2 & Hp2 & He2 & _).
  unfold listError, listState in *.
  destruct (value (listRun src1)) as [e1 [o1 p1]], (value (listRun src2)) as [e2 [o2 p2]].
  simpl in *. congruence.
Qed.

(** X7.  The queries of a pass are issued in a fixed order and each at most
    once: the cluster environment first, then its operations, the update
    environment, the join environment, the remote environment, its operator,
    and the local wizard environment. *)
Theorem List_queries_in_order src :
  StronglySorted lt (queryRank <$> sourceQueries (events (listRun src))) /\
  NoDup (sourceQueries (events (listRun src))) /\
  head (sourceQueries (events (listRun src))) = Some NewClusterEnvironment.
Proof.
  destruct (List_run src) as (_ & _ & _ & -> & _).
  assert (Hs : StronglySorted lt (queryRank <$> expectedQueries src)).
  { unfold expectedQueries, installTrace, wizardTrace.
    destruct (clusterEnv src), (updateEnv src), (joinEnv src), (consultInstall src),
      (remoteEnv src) as [[o|]|?]; try destruct (GetLocalSite o);
      destruct (localWizardEnv src); simpl;
      repeat (apply SSorted_cons; [|repeat constructor; lia]); constructor. }
  split_and!; [done| |done].
  eapply (NoDup_fmap_1 queryRank).
  clear -Hs. induction Hs as [|a l _ IH Ha]; constructor; [|done].
  intros Hin. rewrite Forall_forall in Ha. specialize (Ha a Hin). lia.
Qed.

(** X8.  The pointer is the first operation the cluster backend delivered,
    as delivered: the later sources do not change it, so whether the install
    sources are consulted depends on the cluster environment alone. *)
Theorem pointer_is_cluster_head src :
  clusterOperation (listState src) = head (clusterOps src) /\
  (forall src', clusterEnv src' = clusterEnv src ->
     isActiveInstallOperation (listState src') = isActiveInstallOperation (listState src)).
Proof.
  destruct (List_run src) as (_ & Hp & _). split; [done|].
  intros src' Hc. rewrite !isActiveInstallOperation_List.
  unfold consultInstall, clusterPointer, clusterOps. by rewrite Hc.
Qed.

(** X9.  The map of a pass holds operations the sources delivered and
    nothing else, each under its own ID; every ID a source delivered is a
    key; and the operation obtained from the install sources is always the
    map's entry for its ID. *)
Theorem merged_map_contents src :
  (forall k op, operations (listState src) !! k = Some op ->
     ID op = k /\ op ∈ mergeSequence src) /\
  (forall op, op ∈ mergeSequence src -> is_Some (operations (listState src) !! ID op)) /\
  (forall i, installOp src = Some i -> operations (listState src) !! ID i = Some i).
Proof.
  destruct (List_run src) as (-> & _). split_and!.
  - intros k op Hl. rewrite mergeAll_lookup in Hl.
    unfold lastWithID in Hl.
    apply last_Some_elem_of, list_elem_of_In, List.filter_In in Hl as [Hin Heq].
    split; [by apply String.eqb_eq in Heq|by apply list_elem_of_In].
  - intros op Hin. rewrite mergeAll_lookup. unfold lastWithID.
    apply last_is_Some. intros Hnil.
    assert (List.In op (List.filter (fun o => String.eqb (ID o) (ID op))
                          (mergeSequence src))) as Hf.
    { apply List.filter_In. split; [by apply list_elem_of_In|by apply String.eqb_eq]. }
    by rewrite Hnil in Hf.
  - intros i Hi. unfold mergeSequence. rewrite Hi. simpl.
    by rewrite mergeAll_snoc, lookup_insert_eq.
Qed.
Lemma NoDup_fmap_filter {A B} (f : A -> B) (p : A -> bool) (l : list A) :
  NoDup (f <$> l) -> NoDup (f <$> List.filter p l).
Proof.
  induction l as [|x l IH]; simpl; [done|].
  rewrite NoDup_cons. intros [Hx Hl]. destruct (p x); simpl; [|by apply IH].
  apply NoDup_cons. split; [|by apply IH].
  intros Hin. apply Hx. apply list_elem_of_fmap in Hin as (y & -> & Hy).
  apply list_elem_of_fmap. exists y. split; [done|].
  apply list_elem_of_In, List.filter_In in Hy as [Hy _]. by apply list_elem_of_In.
Qed.

Lemma candidates_distinct src id : NoDup (ID <$> candidates src id).
Proof.
  unfold candidates. apply NoDup_fmap_filter.
  destruct (List_run src) as (Hops & _).
  assert (Heq : ID <$> List.map snd (map_to_list (operations (listState src)))
                = (map_to_list (operations (listState src))).*1).
  { change (List.map snd ?l) with (snd <$> l). rewrite <- list_fmap_compose.
    apply list_fmap_ext. intros i [k op] Hl. simpl.
    apply list_elem_of_lookup_2, elem_of_map_to_list in Hl.
    rewrite Hops in Hl. by apply mergeAll_key in Hl. }
  rewrite Heq. apply NoDup_fst_map_to_list.
Qed.

Lemma matchesID_filter id op :
  matchesID id op = true -> id <> EmptyString -> ID op = id.
Proof.
  unfold matchesID. intros Hm Hid. apply orb_true_iff in Hm as [Hm|Hm].
  - by apply String.eqb_eq in Hm.
  - by apply String.eqb_eq in Hm.
Qed.

Lemma events_pair {A} (a : A) (w : list Event) : events (a, w) = w.
Proof. done. Qed.

Lemma value_pair {A} (a : A) (w : list Event) : value (a, w) = a.
Proof. done. Qed.

Section FurtherProperties.
Variable rangeMap : gmap string SiteOperation -> list (string * SiteOperation).
Variable sortSlice :
  (SiteOperation -> SiteOperation -> bool) -> list SiteOperation -> list SiteOperation.
Variable RootPhase : string.
Variable fmtQ : OperationType -> string.
Variable handler : HandlerCall -> option error.
Hypothesis range_ok : RangesMaps rangeMap.
Hypothesis sort_ok : SortsSlices sortSlice.

#[local] Abbreviation getBackendOperations' := (getBackendOperations rangeMap sortSlice).
#[local] Abbreviation getLastOperation' := (getLastOperation rangeMap sortSlice).
#[local] Abbreviation getActiveOperation' := (getActiveOperation rangeMap sortSlice).
#[local] Abbreviation entryPoint' := (entryPoint rangeMap sortSlice fmtQ handler).
#[local] Abbreviation ExecutePhase' := (ExecutePhase rangeMap sortSlice fmtQ handler).
#[local] Abbreviation ResumeOperation' :=
  (ResumeOperation rangeMap sortSlice RootPhase fmtQ handler).

Lemma filtered_distinct src id ops :
  value (getBackendOperations' src id) = Ok ops ->
  NoDup (ID <$> ops) /\
  Forall (fun op => operations (listState src) !! ID op = Some op) ops /\
  (id <> EmptyString -> length ops <= 1 /\ Forall (fun op => ID op = id) ops).
Proof.
  intros Hops.
  destruct (resolved_candidates _ _ range_ok sort_ok _ _ _ Hops) as (_ & Hperm & _).
  assert (Hnd : NoDup (ID <$> ops)) by (rewrite Hperm; apply candidates_distinct).
  assert (Hall : forall op, op ∈ ops ->
            operations (listState src) !! ID op = Some op /\ matchesID id op = true).
  { intros op Hin. rewrite Hperm in Hin. by apply elem_of_candidates in Hin. }
  split_and!; [done| |].
  - apply Forall_forall. intros op Hin. by apply Hall.
  - intros Hid.
    assert (Hids : Forall (fun op => ID op = id) ops).
    { apply Forall_forall. intros op Hin. apply matchesID_filter; [|done]. by apply Hall. }
    split; [|done].
    destruct ops as [|a [|b rest]]; simpl; [lia|lia|].
    exfalso. simpl in Hnd. apply NoDup_cons in Hnd as [Hnotin _].
    apply Hnotin. rewrite !Forall_cons in Hids. destruct Hids as (-> & -> & _).
    apply list_elem_of_here.
Qed.

(** X10.  The operations handed to the queries have pairwise distinct IDs
    and are the map's entries for their IDs; with an ID filter there is at
    most one, and it carries that ID. *)
Theorem filtered_operations_distinct src id ops :
  value (getBackendOperations' src id) = Ok ops ->
  NoDup (ID <$> ops) /\
  Forall (fun op => operations (listState src) !! ID op = Some op) ops /\
  (id <> EmptyString -> length ops <= 1 /\ Forall (fun op => ID op = id) ops).
Proof. apply filtered_distinct. Qed.

Lemma filtered_by_ID src id ops :
  id <> EmptyString ->
  value (getBackendOperations' src id) = Ok ops ->
  ops = match operations (listState src) !! id with
        | Some op => [op]
        | None => []
        end.
Proof.
  intros Hid Hops.
  destruct (filtered_distinct src id ops Hops) as (_ & Hmap & Hone).
  destruct (Hone Hid) as [Hlen Hids].
  destruct (resolved_candidates _ _ range_ok sort_ok _ _ _ Hops) as (_ & Hperm & _).
  destruct (operations (listState src) !! id) as [op|] eqn:Hl.
  - assert (Hin : op ∈ ops).
    { rewrite Hperm. apply elem_of_candidates.
      destruct (List_run src) as (Hmerged & _).
      assert (ID op = id) as Hop by (rewrite Hmerged in Hl; by apply mergeAll_key in Hl).
      rewrite Hop. split; [done|]. unfold matchesID. rewrite <- Hop.
      by rewrite String.eqb_refl, orb_true_r. }
    destruct ops as [|a [|b rest]]; [by apply elem_of_nil in Hin| |simpl in Hlen; lia].
    by apply list_elem_of_singleton in Hin as ->.
  - destruct ops as [|a rest]; [done|].
    rewrite !Forall_cons in Hmap, Hids. destruct Hmap as [Ha _], Hids as [Hida _].
    rewrite Hida in Ha. congruence.
Qed.

(** X11.  With an ID filter and a pass that succeeds, [getLastOperation]
    returns the map's entry for that ID, or the NotFound error naming the ID
    when there is none; [getActiveOperation] returns the same entry unless it
    is completed, in which case it fails with "no active operations found".
    The notice about multiple operations is not logged. *)
Theorem lookup_by_ID src id :
  id <> EmptyString ->
  listError src = None ->
  value (getLastOperation' src id) =
    match operations (listState src) !! id with
    | Some op => Ok op
    | None => Err (NotFound ("no operation with ID " +:+ id +:+ " found"))
    end /\
  value (getActiveOperation' src id) =
    match operations (listState src) !! id with
    | Some op =>
        if IsCompleted op then Err (Wrap (NotFound "no active operations found"))
        else Ok op
    | None => Err (NotFound ("no operation with ID " +:+ id +:+ " found"))
    end /\
  forall ops, Log (mkLog InfoLevel multipleOperations None None ops)
                ∉ drop (length (events (listRun src))) (events (getLastOperation' src id)).
Proof.
  intros Hid Herr.
  destruct (candidates_resolved rangeMap sortSlice src id Herr) as [ops Hops].
  pose proof (filtered_by_ID src id ops Hid Hops) as Heq.
  rewrite (getLastOperation_run rangeMap sortSlice),
    (getActiveOperation_run rangeMap sortSlice), Hops.
  unfold value, events. cbn [fst snd]. rewrite drop_app_length.
  assert (Hno : noOperation id = NotFound ("no operation with ID " +:+ id +:+ " found")).
  { unfold noOperation. destruct (String.eqb_spec id EmptyString); [done|done]. }
  assert (Hneq : String.eqb id EmptyString = false).
  { by destruct (String.eqb_spec id EmptyString). }
  destruct (operations (listState src) !! id) as [op|]; subst ops; simpl.
  - rewrite Hneq. simpl. split_and!; [done|by destruct (IsCompleted op)|].
    intros ops Hin. set_solver.
  - rewrite Hno. split_and!; [done|done|]. intros ops Hin. set_solver.
Qed.

(** X13.  When [List] fails, every entry point and [getLastOperation] fail
    with an error of the same kind and message, after the queries of the pass
    and nothing else; [ResumeOperation] then calls [Restart] iff that error
    is a NotFound error, and no other handler. *)
Theorem List_failure_propagates a src params e :
  listError src = Some e ->
  (exists e',
     entryPoint' a src params = (Some e', events (listRun src)) /\
     kind e' = kind e /\ message e' = message e) /\
  (exists e',
     value (getLastOperation' src (OperationID params)) = Err e' /\
     kind e' = kind e /\ message e' = message e) /\
  handlerCalls (events (ResumeOperation' src params)) =
    (if IsNotFound e then [restartCall (installerOrDefault (Installer_ params))] else []).
Proof.
  intros Herr.
  assert (Hact : forall id, getActiveOperation' src id = (Err (Wrap (Wrap e)), events (listRun src))).
  { intros id. rewrite (getActiveOperation_run rangeMap sortSlice).
    rewrite (getBackendOperations_run rangeMap sortSlice), Herr. unfold value. simpl.
    by rewrite app_nil_r. }
  assert (Hentry : forall a p, entryPoint' a src p =
                     (Some (Wrap (Wrap (Wrap e))), events (listRun src))).
  { intros a' p. rewrite entryPoint_run, Hact. done. }
  split_and!.
  - eexists. split; [apply Hentry|done].
  - rewrite (getLastOperation_run rangeMap sortSlice).
    rewrite (getBackendOperations_run rangeMap sortSlice), Herr. by eexists.
  - unfold ResumeOperation. fold (resumeParams RootPhase params).
    pose proof (Hentry Execute (resumeParams RootPhase params)) as Hexec.
    simpl in Hexec. rewrite bind_events, Hexec.
    unfold value, events. cbn [fst snd].
    destruct (List_run src) as (_ & _ & _ & _ & Hnone). unfold events in Hnone.
    replace (IsNotFound (Wrap (Wrap (Wrap e)))) with (IsNotFound e) by done.
    rewrite handlerCalls_app, Hnone. simpl.
    destruct (IsNotFound e); simpl; [|done].
    by destruct (installerOrDefault (Installer_ params)).
Qed.
Lemma getActiveOperation_trace src id :
  handlerCalls (events (getActiveOperation' src id)) = [] /\
  sourceQueries (events (getActiveOperation' src id)) = sourceQueries (events (listRun src)).
Proof.
  rewrite (getActiveOperation_run rangeMap sortSlice). rewrite !events_pair.
  rewrite handlerCalls_app, sourceQueries_app.
  destruct (List_run src) as (_ & _ & _ & _ & ->).
  destruct (value (getBackendOperations' src id)); simpl; by rewrite app_nil_r.
Qed.

(** What an entry of the dispatch table does: one handler call, with the
    resolved operation and, except for completion, the caller's parameters;
    its result is the handler's, wrapped by the default installer. *)
Lemma dispatchTable_entry a params op h :
  dispatchTable handler a params op = Some h ->
  exists call,
    events h = [Invoke call] /\
    callOperation call = Some op /\
    callParams call = paramsPassed a params /\
    (value h = handler call \/ value h = WrapNil (handler call)).
Proof.
  unfold dispatchTable. intros Ht.
  destruct (Type_ op), a; try discriminate Ht; injection Ht as <-;
    try destruct (installerOrDefault (Installer_ params));
    eexists; (split; [reflexivity|]); (split; [reflexivity|]); (split; [reflexivity|]);
    first [left; reflexivity | right; reflexivity].
Qed.

Lemma entryPoint_calls a src params call :
  handlerCalls (events (entryPoint' a src params)) = [call] ->
  exists op h,
    value (getActiveOperation' src (OperationID params)) = Ok op /\
    dispatchTable handler a params op = Some h /\
    events h = [Invoke call] /\
    entryPoint' a src params =
      (value h, events (getActiveOperation' src (OperationID params)) ++ events h).
Proof.
  rewrite entryPoint_run.
  destruct (getActiveOperation_trace src (OperationID params)) as [Hnone _].
  destruct (value (getActiveOperation' src (OperationID params))) as [op|e].
  - destruct (dispatchTable handler a params op) as [h|] eqn:Ht.
    + rewrite events_pair. rewrite handlerCalls_app, Hnone.
      destruct (dispatchTable_entry _ _ _ _ Ht) as (c & Hev & _).
      rewrite Hev. simpl. intros [= ->]. exists op, h.
      split_and!; [done|done|done|by rewrite Hev].
    + rewrite events_pair. by rewrite Hnone.
  - rewrite events_pair. by rewrite Hnone.
Qed.

(** X14.  An entry point invokes at most one handler, and the handler gets
    the resolved operation and, for execution and rollback, the parameters
    exactly as the caller passed them. *)
Theorem handler_arguments a src params op :
  value (getActiveOperation' src (OperationID params)) = Ok op ->
  length (handlerCalls (events (entryPoint' a src params))) <= 1 /\
  forall call, call ∈ handlerCalls (events (entryPoint' a src params)) ->
    callOperation call = Some op /\
    callParams call = paramsPassed a params.
Proof.
  intros Hop. rewrite entryPoint_run, Hop.
  destruct (getActiveOperation_trace src (OperationID params)) as [Hnone _].
  destruct (dispatchTable handler a params op) as [h|] eqn:Ht.
  - rewrite !events_pair. rewrite handlerCalls_app, Hnone.
    destruct (dispatchTable_entry _ _ _ _ Ht) as (c & -> & Hco & Hcp & _). simpl.
    split; [lia|]. intros call Hin. by apply list_elem_of_singleton in Hin as ->.
  - rewrite !events_pair. rewrite Hnone. split; [simpl; lia|].
    intros call Hin. by apply elem_of_nil in Hin.
Qed.

Lemma entryPoint_result a src params call :
  handlerCalls (events (entryPoint' a src params)) = [call] ->
  match handler call with
  | None => value (entryPoint' a src params) = None
  | Some e =>
      exists e', value (entryPoint' a src params) = Some e' /\
                 kind e' = kind e /\ message e' = message e
  end.
Proof.
  intros Hcall. destruct (entryPoint_calls _ _ _ _ Hcall) as (op & h & _ & Ht & Hev & ->).
  destruct (dispatchTable_entry _ _ _ _ Ht) as (c & Hev' & _ & _ & Hval).
  rewrite Hev in Hev'. injection Hev' as <-. rewrite !value_pair.
  destruct Hval as [-> | ->]; destruct (handler call); simpl; by eauto.
Qed.

(** X15.  When an entry point invokes a handler, it returns nil iff the
    handler does, and otherwise an error with the kind and the message of the
    handler's error. *)
Theorem handler_result_returned a src params call :
  handlerCalls (events (entryPoint' a src params)) = [call] ->
  match handler call with
  | None => value (entryPoint' a src params) = None
  | Some e =>
      exists e', value (entryPoint' a src params) = Some e' /\
                 kind e' = kind e /\ message e' = message e
  end.
Proof. apply entryPoint_result. Qed.

(** X16.  [ResumeOperation] also restarts the installation when an active
    operation was found and its handler failed with a NotFound error: the
    handler and then [Restart] are invoked.  A handler failure of any other
    kind is returned with its kind and message and [Restart] is not
    invoked. *)
Theorem ResumeOperation_after_handler_failure src params call e :
  handlerCalls (events (ExecutePhase' src (resumeParams RootPhase params))) = [call] ->
  handler call = Some e ->
  handlerCalls (events (ResumeOperation' src params)) =
    (if IsNotFound e
     then [call; restartCall (installerOrDefault (Installer_ params))]
     else [call]) /\
  (IsNotFound e = false ->
   exists e', value (ResumeOperation' src params) = Some e' /\
              kind e' = kind e /\ message e' = message e).
Proof.
  intros Hcall He.
  pose proof (entryPoint_result Execute src (resumeParams RootPhase params) call Hcall)
    as Hres.
  rewrite He in Hres. destruct Hres as (e' & Hv & Hk & Hm). simpl in Hv, Hcall.
  unfold ResumeOperation. fold (resumeParams RootPhase params).
  rewrite bind_events, bind_value, handlerCalls_app, Hcall, Hv.
  replace (IsNotFound e') with (IsNotFound e) by (unfold IsNotFound; by rewrite Hk).
  destruct (IsNotFound e); simpl.
  - split; [|done]. by destruct (installerOrDefault (Installer_ params)).
  - split; [done|]. intros _. eexists. by split.
Qed.

(** X17.  Every entry point, [ResumeOperation] included, and
    [getLastOperation] make the queries of exactly one pass of [List]:
    nothing is queried again before a handler or [Restart] runs. *)
Theorem single_resolution_pass a src params :
  sourceQueries (events (entryPoint' a src params)) = sourceQueries (events (listRun src)) /\
  sourceQueries (events (ResumeOperation' src params)) = sourceQueries (events (listRun src)) /\
  sourceQueries (events (getLastOperation' src (OperationID params)))
    = sourceQueries (events (listRun src)).
Proof.
  assert (Hentry : forall a p,
    OperationID p = OperationID params ->
    sourceQueries (events (entryPoint' a src p)) = sourceQueries (events (listRun src))).
  { intros a' p Hp. rewrite entryPoint_run, Hp.
    destruct (getActiveOperation_trace src (OperationID params)) as [_ Hq].
    destruct (value (getActiveOperation' src (OperationID params))) as [op|e]; [|done].
    destruct (dispatchTable handler a' p op) as [h|] eqn:Ht; [|done].
    rewrite events_pair. rewrite sourceQueries_app, Hq.
    destruct (dispatchTable_entry _ _ _ _ Ht) as (c & -> & _). simpl.
    by rewrite app_nil_r. }
  split_and!.
  - by apply Hentry.
  - unfold ResumeOperation. fold (resumeParams RootPhase params).
    rewrite bind_events, sourceQueries_app.
    pose proof (Hentry Execute (resumeParams RootPhase params) eq_refl) as Hexec.
    simpl in Hexec. rewrite Hexec.
    destruct (value (ExecutePhase' src (resumeParams RootPhase params))) as [e|];
      [|by rewrite app_nil_r].
    destruct (IsNotFound e); simpl; [|by rewrite app_nil_r].
    destruct (installerOrDefault (Installer_ params)); simpl; by rewrite app_nil_r.
  - rewrite (getLastOperation_run rangeMap sortSlice). rewrite events_pair.
    rewrite !sourceQueries_app.
    destruct (value (getBackendOperations' src (OperationID params))) as [[|o ops]|e];
      simpl; rewrite ?app_nil_r; try done.
    destruct (Nat.eqb (length ops) 0 && negb (String.eqb (OperationID params) EmptyString));
      simpl; rewrite ?app_nil_r; try done.
    destruct (negb (Nat.eqb (length ops) 0)); simpl; by rewrite ?app_nil_r.
Qed.
End FurtherProperties.

(** ** The further properties at sample inputs *)

Lemma List_keeps_keys_witness : keysAreIDs (operations (listState srcSameID)).
Proof.
  apply (List_keeps_keys srcSameID newBackendOperations).
  intros k op Hl. simpl in Hl. rewrite lookup_empty in Hl. discriminate Hl.
Defined.

Lemma List_never_removes_witness :
  is_Some (operations (snd (value (List srcUpdate stateWithZ))) !! "Z").
Proof.
  apply List_never_removes. eexists. reflexivity.
Defined.

Lemma List_pointer_in_map_witness :
  is_Some (operations (listState srcPointerOverwritten) !! "I").
Proof.
  apply (List_pointer_in_map srcPointerOverwritten newBackendOperations) with (p := opI).
  - intros p Hp. discriminate Hp.
  - reflexivity.
Defined.

Lemma List_fails_iff_witness :
  listError srcNothing = Some (WrapMsg ioError "failed to read local wizard environment").
Proof.
  destruct (List_fails_iff srcNothing) as [Hiff Herr].
  destruct (listError srcNothing) as [e'|] eqn:He.
  - destruct (Herr e' eq_refl) as (e & Hw & ->). injection Hw as <-. reflexivity.
  - exfalso. apply (proj2 Hiff); [|reflexivity].
    split_and!; [reflexivity|reflexivity|by eexists].
Defined.

Lemma List_ignores_source_failures_witness :
  value (listRun srcDegraded) = value (listRun srcDegradedAbsent).
Proof.
  apply List_ignores_source_failures; reflexivity.
Defined.

Lemma pointer_is_cluster_head_witness :
  operations (listState srcPointerOverwritten) !! "I" = Some opI2 /\
  clusterOperation (listState srcPointerOverwritten) = Some opI /\
  isActiveInstallOperation (listState srcPointerOverwritten) =
    isActiveInstallOperation (listState srcInstallOnly).
Proof.
  destruct (pointer_is_cluster_head srcInstallOnly) as [_ H].
  split_and!; [by vm_compute|by vm_compute|].
  apply H. reflexivity.
Defined.

Lemma merged_map_contents_witness :
  operations (listState srcInstall) !! "I" = Some opI.
Proof.
  destruct (merged_map_contents srcInstall) as (_ & _ & H).
  apply (H opI). reflexivity.
Defined.

Lemma filtered_operations_distinct_witness :
  NoDup (ID <$> [opB; opA1]) /\
  length [opA1] <= 1.
Proof.
  destruct (filtered_operations_distinct rangeForward insertionSort
              rangeForward_ranges insertionSort_sorts srcUpdate EmptyString
              [opB; opA1]) as (Hnd & _); [by vm_compute|].
  destruct (filtered_operations_distinct rangeForward insertionSort
              rangeForward_ranges insertionSort_sorts srcUpdate "A"
              [opA1]) as (_ & _ & Hone); [by vm_compute|].
  split; [exact Hnd|]. by apply Hone.
Defined.

Lemma lookup_by_ID_witness :
  value (getLastOperation rangeForward insertionSort srcUpdate "A") = Ok opA1 /\
  value (getActiveOperation rangeForward insertionSort srcUpdate "A")
    = Err (Wrap (NotFound "no active operations found")).
Proof.
  destruct (lookup_by_ID rangeForward insertionSort rangeForward_ranges
              insertionSort_sorts srcUpdate "A") as (Hlast & Hactive & _);
    [done|by vm_compute|].
  split; [exact Hlast|exact Hactive].
Defined.


Lemma List_failure_propagates_witness :
  (exists e',
     entryPoint rangeForward insertionSort quoteType handlersSucceed Rollback srcNothing
       sampleParams = (Some e', events (listRun srcNothing)) /\
     kind e' = OtherKind "IOError") /\
  handlerCalls (events (ResumeOperation rangeForward insertionSort sampleRootPhase
                          quoteType handlersSucceed srcNothing sampleParams)) = [] /\
  handlerCalls (events (ResumeOperation rangeForward insertionSort sampleRootPhase
                          quoteType handlersSucceed srcWizardNotFound sampleParams))
    = [startInstall].
Proof.
  split_and!.
  - destruct (List_failure_propagates rangeForward insertionSort sampleRootPhase
                quoteType handlersSucceed Rollback srcNothing sampleParams
                (WrapMsg ioError "failed to read local wizard environment"))
      as ((e' & Hrun & Hk & _) & _); [by vm_compute|].
    exists e'. split; [exact Hrun|exact Hk].
  - destruct (List_failure_propagates rangeForward insertionSort sampleRootPhase
                quoteType handlersSucceed Rollback srcNothing sampleParams
                (WrapMsg ioError "failed to read local wizard environment"))
      as (_ & _ & H); [by vm_compute|]. exact H.
  - destruct (List_failure_propagates rangeForward insertionSort sampleRootPhase
                quoteType handlersSucceed Rollback srcWizardNotFound sampleParams
                (WrapMsg wizardNotFound "failed to read local wizard environment"))
      as (_ & _ & H); [by vm_compute|]. exact H.
Defined.

Lemma handler_arguments_witness :
  callOperation (executeUpdatePhase sampleParams opB) = Some opB /\
  callParams (executeUpdatePhase sampleParams opB) = Some sampleParams.
Proof.
  destruct (handler_arguments rangeForward insertionSort quoteType handlersSucceed
              Execute srcUpdate sampleParams opB) as [_ H]; [by vm_compute|].
  apply (H (executeUpdatePhase sampleParams opB)).
  vm_compute. apply list_elem_of_here.
Defined.

Lemma handler_result_returned_witness :
  exists e',
    value (entryPoint rangeForward insertionSort quoteType handlersPhaseNotFound Execute
             srcUpdate sampleParams) = Some e' /\
    kind e' = NotFoundKind /\ message e' = "phase not found".
Proof.
  exact (handler_result_returned rangeForward insertionSort quoteType
           handlersPhaseNotFound Execute srcUpdate sampleParams
           (executeUpdatePhase sampleParams opB) eq_refl).
Defined.

Lemma ResumeOperation_after_handler_failure_witness :
  handlerCalls (events (ResumeOperation rangeForward insertionSort sampleRootPhase
                          quoteType handlersPhaseNotFound srcUpdate sampleParams))
    = [executeUpdatePhase (resumeParams sampleRootPhase sampleParams) opB; startInstall].
Proof.
  destruct (ResumeOperation_after_handler_failure rangeForward insertionSort
              sampleRootPhase quoteType handlersPhaseNotFound srcUpdate sampleParams
              (executeUpdatePhase (resumeParams sampleRootPhase sampleParams) opB)
              (NotFound "phase not found")) as [H _]; [by vm_compute|reflexivity|].
  exact H.
Defined.
